(** * MB::TCP::Connection: Modbus-over-TCP framing and correlation

    A shallow embedding of [src/TCP/connection.cpp] (class
    [MB::TCP::Connection], declared in [TCP/connection.hpp]) and the
    properties of its frame layout, transaction-id correlation, receive
    classification and socket ownership.

    The C++ code reads and writes its 16- and 32-bit integers through
    [reinterpret_cast], so the bytes it produces depend on the byte order
    of the host.  The embedding keeps that dependency: every operation is
    parametrised by the [endianness] of the host. *)

From Stdlib Require Import ZArith Lia.
From Stdlib Require Import Strings.Byte.
From stdpp Require Import base option list numbers gmap.

Local Open Scope Z_scope.

(* ================================================================== *)
(** * Part I: the embedding                                            *)
(* ================================================================== *)

(** ** Bytes and machine integers *)

(** The numeric value of a [uint8_t]. *)
Definition byte_val (b : byte) : Z := Z.of_N (Byte.to_N b).

(** [(uint8_t) z]: conversion to [uint8_t] keeps the low eight bits. *)
Definition to_uint8 (z : Z) : byte :=
  default x00 (Byte.of_N (Z.to_N (z mod 256))).

(** [(uint32_t) z]. *)
Definition to_uint32 (z : Z) : Z := z mod 4294967296.

Inductive endianness := LittleEndian | BigEndian.

(** The [n] low bytes of [v], least significant first. *)
Fixpoint le_bytes (n : nat) (v : Z) : list byte :=
  match n with
  | O => []
  | S n' => to_uint8 v :: le_bytes n' (v / 256)
  end.

(** The unsigned value of a byte string, least significant byte first. *)
Fixpoint le_value (bs : list byte) : Z :=
  match bs with
  | [] => 0
  | b :: bs' => byte_val b + 256 * le_value bs'
  end.

(** The object representation of an [n]-byte unsigned integer in the
    memory of the host, lowest address first, and its inverse. *)
Definition object_bytes (host : endianness) (n : nat) (v : Z) : list byte :=
  match host with
  | LittleEndian => le_bytes n v
  | BigEndian => reverse (le_bytes n v)
  end.

Definition object_value (host : endianness) (bs : list byte) : Z :=
  match host with
  | LittleEndian => le_value bs
  | BigEndian => le_value (reverse bs)
  end.

(** [reinterpret_cast<const uint8_t *>(&v)[i]] for a [uint16_t v]. *)
Definition uint8_of_uint16 (host : endianness) (v : Z) (i : nat) : byte :=
  default x00 (object_bytes host 2 v !! i).

(** [reinterpret_cast<uint16_t *>(&v)[i]] for a [uint32_t v]. *)
Definition uint16_of_uint32 (host : endianness) (v : Z) (i : nat) : Z :=
  object_value host (take 2 (drop (2 * i) (object_bytes host 4 v))).

(** The fields of a frame as the specification's wire format defines
    them, independent of any host: unsigned 16-bit big-endian numbers.
    The transaction id is at offsets 0..1. *)
Definition wire_transaction_id (frame : list byte) : Z :=
  object_value BigEndian (take 2 frame).

(** The length field, at offsets 4..5. *)
Definition wire_length (frame : list byte) : Z :=
  object_value BigEndian (take 2 (drop 4 frame)).


(** ** The connection object *)

Definition DefaultTCPTimeout : Z := 500.

Record Connection := mkConnection {
  _sockfd : Z;      (* int _sockfd = -1 *)
  _messageID : Z;   (* uint16_t _messageID = 0 *)
  _timeout : Z      (* int _timeout = DefaultTCPTimeout *)
}.

(** The values a [uint16_t] field can hold. *)
Definition is_uint16 (v : Z) : Prop := 0 <= v < 65536.

(** ** Exceptions and the PDU codec *)

(** The members of [MB::utils] that [connection.cpp] raises. *)
Inductive MBErrorCode :=
  | ProtocolError
  | ConnectionClosed
  | Timeout
  | InvalidMessageID.

(** The two ways the code constructs an [MB::ModbusException]: from an
    error code, and from the raw bytes of a received PDU. *)
Inductive ModbusException :=
  | ExceptionOfCode (code : MBErrorCode)
  | ExceptionOfRaw (raw : list byte).

(** The PDU classes are not part of this translation unit: they are an
    interface the connection is parametrised by. *)
Class PduCodec := {
  ModbusRequest : Type;
  ModbusResponse : Type;
  requestToRaw : ModbusRequest → list byte;
  responseToRaw : ModbusResponse → list byte;
  exceptionToRaw : ModbusException → list byte;
  (* [fromRaw] either builds the object or throws *)
  requestFromRaw : list byte → ModbusException + ModbusRequest;
  responseFromRaw : list byte → ModbusException + ModbusResponse;
  (* [MB::ModbusException::exist] *)
  exceptionExist : list byte → bool
}.

(** The calls that hand received bytes to the codec, in the order made. *)
Inductive CodecCall :=
  | CallExist (r : list byte)
  | CallExceptionOfRaw (r : list byte)
  | CallRequestFromRaw (r : list byte)
  | CallResponseFromRaw (r : list byte).

(** The bytes a call hands over. *)
Definition callBytes (c : CodecCall) : list byte :=
  match c with
  | CallExist r | CallExceptionOfRaw r
  | CallRequestFromRaw r | CallResponseFromRaw r => r
  end.

(** ** The socket *)

(** What one call of [::recv] finds: a failure (the call returns -1) or
    the bytes the stream holds ready at that moment (none: the peer has
    shut down, the call returns 0). *)
Inductive RecvEvent :=
  | RecvFails
  | RecvBytes (bs : list byte).

Record Socket := mkSocket {
  pollResult : Z → Z;            (* the value of [::poll], by timeout in ms *)
  inbox : list RecvEvent;        (* what successive [::recv] calls find *)
  sendCalls : list (list byte)   (* the buffers handed to [::send] *)
}.

(** ** Results and the state the member functions run in *)

Inductive result (A : Type) :=
  | Ok (a : A)
  | Throw (e : ModbusException)
  | Undefined.   (* an access outside the bounds of a vector *)
Arguments Ok {A} a.
Arguments Throw {A} e.
Arguments Undefined {A}.

Record State := mkState {
  this : Connection;
  sock : Socket;
  codecCalls : list CodecCall
}.

Definition M (A : Type) : Type := State → result A * State.

#[global] Instance M_ret : MRet M := λ A a s, (Ok a, s).

#[global] Instance M_bind : MBind M := λ A B f m s,
  match m s with
  | (Ok a, s') => f a s'
  | (Throw e, s') => (Throw e, s')
  | (Undefined, s') => (Undefined, s')
  end.

Definition throw {A} (code : MBErrorCode) : M A :=
  λ s, (Throw (ExceptionOfCode code), s).

Definition throwException {A} (e : ModbusException) : M A :=
  λ s, (Throw e, s).

Definition undefined {A} : M A := λ s, (Undefined, s).

Definition getMessageId : M Z := λ s, (Ok (_messageID (this s)), s).

Definition storeMessageId (messageId : Z) (s : State) : State :=
  mkState (mkConnection (_sockfd (this s)) messageId (_timeout (this s)))
          (sock s) (codecCalls s).

Definition setMessageId (messageId : Z) : M () := λ s,
  (Ok (), storeMessageId messageId s).

Definition getTimeout : M Z := λ s, (Ok (_timeout (this s)), s).

Definition addCalls (cs : list CodecCall) (s : State) : State :=
  mkState (this s) (sock s) (codecCalls s ++ cs).

Definition logCall (c : CodecCall) : M () := λ s, (Ok (), addCalls [c] s).

(** [::poll(&_pfd, 1, timeout)]. *)
Definition poll (timeout : Z) : M Z := λ s,
  (Ok (pollResult (sock s) timeout), s).

(** The stream after a read of at most [len] bytes found [bs] ready:
    what did not fit stays at the front. *)
Definition unread (len : nat) (bs : list byte) (q : list RecvEvent)
  : list RecvEvent :=
  match drop len bs with
  | [] => q
  | rest => RecvBytes rest :: q
  end.

Definition setInbox (q : list RecvEvent) (s : State) : State :=
  mkState (this s)
          (mkSocket (pollResult (sock s)) q (sendCalls (sock s)))
          (codecCalls s).

(** [::recv(_sockfd, r.data(), r.size(), 0)] on the zero-filled vector
    [r(len)]: the return value, and the vector after the call.  A call
    takes at most [len] bytes of what is ready and leaves the rest in
    the stream.  An inbox with no event left is a stream the peer has
    closed: the call returns 0. *)
Definition recv (len : nat) : M (Z * list byte) := λ s,
  match inbox (sock s) with
  | [] => (Ok (0, replicate len x00), s)
  | RecvFails :: q => (Ok (-1, replicate len x00), setInbox q s)
  | RecvBytes bs :: q =>
      let got := take len bs in
      (Ok (Z.of_nat (length got), got ++ replicate (len - length got) x00),
       setInbox (unread len bs q) s)
  end.

Definition addSend (buf : list byte) (s : State) : State :=
  mkState (this s)
          (mkSocket (pollResult (sock s)) (inbox (sock s))
                    (sendCalls (sock s) ++ [buf]))
          (codecCalls s).

(** [::send(_sockfd, rawReq.data(), rawReq.size(), 0)]; the code ignores
    the return value. *)
Definition send (buf : list byte) : M () := λ s, (Ok (), addSend buf s).

(** [r.resize(n)]; the [shrink_to_fit] that follows it in the code
    changes no element and no size. *)
Definition resize (r : list byte) (n : nat) : list byte :=
  take n r ++ replicate (n - length r) x00.

(** [*reinterpret_cast<uint16_t *>(&r[0])]: reads [r[0]] and [r[1]] as
    one 16-bit object of the host. *)
Definition read_uint16 (host : endianness) (r : list byte) : M Z :=
  if decide (length r < 2)%nat then undefined
  else mret (object_value host (take 2 r)).

(** [r.erase(r.begin(), r.begin() + n)]. *)
Definition erase_front (r : list byte) (n : nat) : M (list byte) :=
  if decide (length r < n)%nat then undefined
  else mret (drop n r).

(** The outcome of a [fromRaw] call: the object, or the exception it
    throws. *)
Definition resultOf {A} (x : ModbusException + A) : result A :=
  match x with
  | inl e => Throw e
  | inr a => Ok a
  end.

Definition liftFromRaw {A} (x : ModbusException + A) : M A :=
  λ s, (resultOf x, s).

(** ** The member functions of [Connection] *)

Section Connection.
Context (host : endianness) {codec : PduCodec}.

(** The body shared, word for word, by [sendRequest], [sendResponse]
    and [sendException] once [dat] holds the [toRaw()] bytes. *)
Definition sendRaw (dat : list byte) : M (list byte) :=
  id ← getMessageId;
  let rawReq := [] in
  let rawReq := rawReq ++ [uint8_of_uint16 host id 1] in
  let rawReq := rawReq ++ [uint8_of_uint16 host id 0] in
  let rawReq := rawReq ++ [x00] in
  let rawReq := rawReq ++ [x00] in
  let size := to_uint32 (Z.of_nat (length dat)) in
  let rawReq := rawReq ++ [to_uint8 (uint16_of_uint32 host size 1)] in
  let rawReq := rawReq ++ [to_uint8 (uint16_of_uint32 host size 0)] in
  let rawReq := rawReq ++ dat in
  send rawReq;;
  mret rawReq.

Definition sendRequest (req : ModbusRequest) : M (list byte) :=
  sendRaw (requestToRaw req).

Definition sendResponse (res : ModbusResponse) : M (list byte) :=
  sendRaw (responseToRaw res).

Definition sendException (ex : ModbusException) : M (list byte) :=
  sendRaw (exceptionToRaw ex).

Definition awaitRawMessage : M (list byte) :=
  p ← poll (60 * 1000);
  if decide (p <= 0) then throw ConnectionClosed else
  '(size, r) ← recv 1024;
  if decide (size = -1) then throw ProtocolError else
  if decide (size = 0) then throw ConnectionClosed else
  let r := resize r (Z.to_nat size) in
  mret r.

Definition awaitRequest : M ModbusRequest :=
  p ← poll (60 * 1000);
  if decide (p <= 0) then throw Timeout else
  '(size, r) ← recv 1024;
  if decide (size = -1) then throw ProtocolError else
  if decide (size = 0) then throw ConnectionClosed else
  let r := resize r (Z.to_nat size) in
  resultMessageID ← read_uint16 host r;
  setMessageId resultMessageID;;
  r ← erase_front r 6;
  logCall (CallRequestFromRaw r);;
  liftFromRaw (requestFromRaw r).

Definition awaitResponse : M ModbusResponse :=
  timeout ← getTimeout;
  p ← poll timeout;
  if decide (p <= 0) then throw Timeout else
  '(size, r) ← recv 1024;
  if decide (size = -1) then throw ProtocolError else
  if decide (size = 0) then throw ConnectionClosed else
  let r := resize r (Z.to_nat size) in
  resultMessageID ← read_uint16 host r;
  id ← getMessageId;
  if decide (resultMessageID ≠ id) then throw InvalidMessageID else
  r ← erase_front r 6;
  logCall (CallExist r);;
  if exceptionExist r then
    logCall (CallExceptionOfRaw r);;
    throwException (ExceptionOfRaw r)
  else
    logCall (CallResponseFromRaw r);;
    liftFromRaw (responseFromRaw r).

End Connection.

(** ** Construction, destruction and moves

    Several [Connection] objects live side by side: [objects] maps the
    address of each live object to its fields, and [closeCalls] records
    the descriptors passed to [::close], in the order of the calls. *)

Record World := mkWorld {
  objects : gmap nat Connection;
  closeCalls : list Z
}.

(** [Connection::closeSockfd]: the object afterwards, and the
    descriptors it closed. *)
Definition closeSockfd (c : Connection) : Connection * list Z :=
  (mkConnection (-1) (_messageID c) (_timeout c),
   if decide (0 <= _sockfd c) then [_sockfd c] else []).

(** The guard both moves start with:
    [if (_sockfd != -1 && _sockfd != other._sockfd) closeSockfd();]. *)
Definition closeUnlessShared (c other : Connection) : Connection * list Z :=
  if decide (_sockfd c ≠ -1 ∧ _sockfd c ≠ _sockfd other)
  then closeSockfd c
  else (c, []).

(** [Connection::Connection(const int sockfd)] at a fresh address. *)
Definition construct (self : nat) (sockfd : Z) (w : World) : option World :=
  match objects w !! self with
  | Some _ => None
  | None =>
      Some (mkWorld (<[self := mkConnection sockfd 0 DefaultTCPTimeout]> (objects w))
                    (closeCalls w))
  end.

(** [Connection::operator=(Connection &&other)], called on the object at
    [self]. *)
Definition moveAssign (self other : nat) (w : World) : option World :=
  c ← objects w !! self;
  o ← objects w !! other;
  if decide (self = other) then Some w else
  let '(c, closed) := closeUnlessShared c o in
  let c := mkConnection (_sockfd o) (_messageID o) (_timeout c) in
  let o := mkConnection (-1) (_messageID o) (_timeout o) in
  Some (mkWorld (<[other := o]> (<[self := c]> (objects w)))
                (closeCalls w ++ closed)).

(** [Connection::Connection(Connection &&moved)] at a fresh address
    [self]; the members start from their default initialisers. *)
Definition moveConstruct (self moved : nat) (w : World) : option World :=
  match objects w !! self with
  | Some _ => None
  | None =>
      m ← objects w !! moved;
      let c := mkConnection (-1) 0 DefaultTCPTimeout in
      let '(c, closed) := closeUnlessShared c m in
      let c := mkConnection (_sockfd m) (_messageID m) (_timeout c) in
      let m := mkConnection (-1) (_messageID m) (_timeout m) in
      Some (mkWorld (<[moved := m]> (<[self := c]> (objects w)))
                    (closeCalls w ++ closed))
  end.

(** [Connection::~Connection] on the object at [self]. *)
Definition destroy (self : nat) (w : World) : option World :=
  c ← objects w !! self;
  let '(_, closed) := closeSockfd c in
  Some (mkWorld (delete self (objects w)) (closeCalls w ++ closed)).

(** The state a move leaves its source in. *)
Definition movedFrom (o : Connection) : Connection :=
  mkConnection (-1) (_messageID o) (_timeout o).

(** A connection owns the descriptor it would close. *)
Definition owns (c : Connection) (fd : Z) : Prop :=
  _sockfd c = fd ∧ 0 <= fd.

(** No descriptor has two owners. *)
Definition exclusive (w : World) : Prop :=
  ∀ a b ca cb fd,
    objects w !! a = Some ca → objects w !! b = Some cb →
    owns ca fd → owns cb fd → a = b.

(** ** Concrete instances used to run the operations *)

(** Two connections, at addresses 1 and 2, that own the descriptors 3
    and 4. *)
Definition twoConnections : World :=
  mkWorld (<[2%nat := mkConnection 4 7 DefaultTCPTimeout]>
             (<[1%nat := mkConnection 3 0 DefaultTCPTimeout]> ∅))
          [].

(** A codec whose requests and responses are their raw bytes, for a
    given exception detector. *)
Definition rawCodec (exist : list byte → bool) : PduCodec := {|
  ModbusRequest := list byte;
  ModbusResponse := list byte;
  requestToRaw := λ r, r;
  responseToRaw := λ r, r;
  exceptionToRaw := λ e,
    match e with ExceptionOfRaw r => r | ExceptionOfCode _ => [] end;
  requestFromRaw := inr;
  responseFromRaw := inr;
  exceptionExist := exist
|}.

(** A connected client whose stored transaction id is [id], facing a
    readable socket on which the successive reads find [events]. *)
Definition clientState (id : Z) (events : list RecvEvent) : State :=
  mkState (mkConnection 3 id DefaultTCPTimeout)
          (mkSocket (λ _, 1) events [])
          [].

(** The same client facing a socket on which [::poll] returns [p]. *)
Definition pollingState (p : Z) (events : list RecvEvent) : State :=
  mkState (mkConnection 3 0 DefaultTCPTimeout)
          (mkSocket (λ _, p) events [])
          [].

(** ** The header bytes in closed form

    The six bytes the casts of [sendRaw] come to on each host, for a
    stored id [id] and a payload of [n] bytes (lemma [sendRaw_frame]
    proves the agreement). *)
Definition headerBytes (host : endianness) (id : Z) (n : nat) : list byte :=
  let size := to_uint32 (Z.of_nat n) in
  match host with
  | LittleEndian =>
      [to_uint8 (id / 256); to_uint8 id; x00; x00;
       to_uint8 (size / 65536); to_uint8 size]
  | BigEndian =>
      [to_uint8 id; to_uint8 (id / 256); x00; x00;
       to_uint8 size; to_uint8 (size / 65536)]
  end.

(** ** The decoding steps in closed form

    What [awaitRequest] and [awaitResponse] do with the vector [r] once
    the read has succeeded, written as one case distinction (lemmas
    [awaitRequest_received] and [awaitResponse_received] prove the
    agreement with the member functions). *)
Definition requestOutcome (host : endianness) {codec : PduCodec}
    (r : list byte) (s : State) : result ModbusRequest * State :=
  if decide (length r < 2)%nat then (Undefined, s)
  else
    let s1 := storeMessageId (object_value host (take 2 r)) s in
    if decide (length r < 6)%nat then (Undefined, s1)
    else (resultOf (requestFromRaw (drop 6 r)),
          addCalls [CallRequestFromRaw (drop 6 r)] s1).

Definition responseOutcome (host : endianness) {codec : PduCodec}
    (r : list byte) (s : State) : result ModbusResponse * State :=
  if decide (length r < 2)%nat then (Undefined, s)
  else if decide (object_value host (take 2 r) ≠ _messageID (this s))
  then (Throw (ExceptionOfCode InvalidMessageID), s)
  else if decide (length r < 6)%nat then (Undefined, s)
  else if exceptionExist (drop 6 r)
  then (Throw (ExceptionOfRaw (drop 6 r)),
        addCalls [CallExceptionOfRaw (drop 6 r)]
                 (addCalls [CallExist (drop 6 r)] s))
  else (resultOf (responseFromRaw (drop 6 r)),
        addCalls [CallResponseFromRaw (drop 6 r)]
                 (addCalls [CallExist (drop 6 r)] s)).

(** ** Receive operations and the ways a receive fails *)

Inductive ReceiveOp := RawMessageOp | RequestOp | ResponseOp.

Definition thrown {A} (r : result A) : option ModbusException :=
  match r with
  | Throw e => Some e
  | _ => None
  end.

(** The exception a receive operation ends with, if it throws. *)
Definition thrownBy (host : endianness) {codec : PduCodec}
    (op : ReceiveOp) (s : State) : option ModbusException :=
  match op with
  | RawMessageOp => thrown (fst (awaitRawMessage s))
  | RequestOp => thrown (fst (awaitRequest host s))
  | ResponseOp => thrown (fst (awaitResponse host s))
  end.

(** The return value of the next [::recv] into a 1024-byte buffer. *)
Definition nextRecvSize (s : State) : Z :=
  match inbox (sock s) with
  | [] => 0
  | RecvFails :: _ => -1
  | RecvBytes bs :: _ => Z.of_nat (length (take 1024 bs))
  end.

(** The classification as the specification words it: the window each
    operation waits for, the three failures, and the error each yields. *)
Definition waitWindow (op : ReceiveOp) (c : Connection) : Z :=
  match op with
  | ResponseOp => _timeout c
  | RawMessageOp | RequestOp => 60 * 1000
  end.

Inductive ReceiveFailure := WaitExpired | ZeroByteRead | ReadFailed.

Definition occurs (op : ReceiveOp) (s : State) (f : ReceiveFailure) : Prop :=
  match f with
  | WaitExpired => pollResult (sock s) (waitWindow op (this s)) = 0
  | ZeroByteRead =>
      0 < pollResult (sock s) (waitWindow op (this s)) ∧ nextRecvSize s = 0
  | ReadFailed =>
      0 < pollResult (sock s) (waitWindow op (this s)) ∧ nextRecvSize s = -1
  end.

Definition classification (op : ReceiveOp) (f : ReceiveFailure) : MBErrorCode :=
  match f, op with
  | WaitExpired, RawMessageOp => ConnectionClosed
  | WaitExpired, (RequestOp | ResponseOp) => Timeout
  | ZeroByteRead, _ => ConnectionClosed
  | ReadFailed, _ => ProtocolError
  end.

(** What [awaitResponse] ends with once it hands a payload to the
    codec: the detector is asked first, the response decoder only if
    the detector declines. *)
Definition deliverResponse {codec : PduCodec} (payload : list byte) (s : State)
  : result ModbusResponse * State :=
  if exceptionExist payload
  then (Throw (ExceptionOfRaw payload),
        addCalls [CallExist payload; CallExceptionOfRaw payload] s)
  else (resultOf (responseFromRaw payload),
        addCalls [CallExist payload; CallResponseFromRaw payload] s).

(** The wait and the one read that open all three receive functions,
    in closed form: the error they end with, or the bytes read (lemmas
    [awaitRawMessage_total], [awaitRequest_total] and
    [awaitResponse_total] prove the agreement). *)
Definition receivePrelude (wait : MBErrorCode) (timeout : Z) (s : State)
  : (MBErrorCode + list byte) * State :=
  if decide (pollResult (sock s) timeout <= 0) then (inl wait, s) else
  match inbox (sock s) with
  | [] => (inl ConnectionClosed, s)
  | RecvFails :: q => (inl ProtocolError, setInbox q s)
  | RecvBytes bs :: q =>
      let s' := setInbox (unread 1024 bs q) s in
      match take 1024 bs with
      | [] => (inl ConnectionClosed, s')
      | _ :: _ => (inr (take 1024 bs), s')
      end
  end.

(** The state a receive operation leaves. *)
Definition stateAfter (host : endianness) {codec : PduCodec}
    (op : ReceiveOp) (s : State) : State :=
  match op with
  | RawMessageOp => snd (awaitRawMessage s)
  | RequestOp => snd (awaitRequest host s)
  | ResponseOp => snd (awaitResponse host s)
  end.

(** ** The lifetime of connection objects

    The operations that end or transfer the ownership of a descriptor,
    and runs of them over the objects of a [World]. *)

(** [closeSockfd()] called on the object at [self]. *)
Definition closeAt (self : nat) (w : World) : option World :=
  c ← objects w !! self;
  let '(c, closed) := closeSockfd c in
  Some (mkWorld (<[self := c]> (objects w)) (closeCalls w ++ closed)).

Inductive LifeOp :=
  | OpMoveAssign (self other : nat)
  | OpMoveConstruct (self moved : nat)
  | OpClose (self : nat)
  | OpDestroy (self : nat).

Definition lifeStep (op : LifeOp) (w : World) : option World :=
  match op with
  | OpMoveAssign self other => moveAssign self other w
  | OpMoveConstruct self moved => moveConstruct self moved w
  | OpClose self => closeAt self w
  | OpDestroy self => destroy self w
  end.

Fixpoint lifeRun (ops : list LifeOp) (w : World) : option World :=
  match ops with
  | [] => Some w
  | op :: ops' => w' ← lifeStep op w; lifeRun ops' w'
  end.

(** Some object of the world owns [fd]. *)
Definition live (w : World) (fd : Z) : Prop :=
  ∃ a c, objects w !! a = Some c ∧ owns c fd.

(** What a run does to the descriptors when it closes [closed]: the
    descriptors closed were owned before and are owned no longer, none
    is closed twice, and every other descriptor keeps its owner. *)
Definition conserves (w w' : World) (closed : list Z) : Prop :=
  closeCalls w' = closeCalls w ++ closed
  ∧ NoDup closed
  ∧ exclusive w'
  ∧ (∀ fd, live w fd ↔ live w' fd ∨ fd ∈ closed)
  ∧ (∀ fd, fd ∈ closed → ¬ live w' fd).

(** The [operator=] that the class declaration defines inline: it
    passes the descriptor to [::close] itself instead of calling
    [closeSockfd]. *)
Definition moveAssignInline (self other : nat) (w : World) : option World :=
  c ← objects w !! self;
  o ← objects w !! other;
  if decide (self = other) then Some w else
  let closed :=
    if decide (_sockfd c ≠ -1 ∧ _sockfd c ≠ _sockfd o) then [_sockfd c] else [] in
  let c := mkConnection (_sockfd o) (_messageID o) (_timeout c) in
  let o := mkConnection (-1) (_messageID o) (_timeout o) in
  Some (mkWorld (<[other := o]> (<[self := c]> (objects w)))
                (closeCalls w ++ closed)).

(** ** [Connection::with]

    The system calls [with] makes are answered by the network it runs
    against; the calls are recorded in the order made. *)

Record Network := mkNetwork {
  (* the value of [::socket(AF_INET, SOCK_STREAM, 0)] *)
  socketResult : Z;
  (* [::inet_pton(AF_INET, addr, &sin_addr)] on a zeroed [sin_addr]:
     the return value and the [sin_addr] it leaves *)
  inetPton : list byte → Z * Z;
  (* the value of [::connect], by descriptor, address and port *)
  connectResult : Z → Z → Z → Z
}.

Inductive Syscall :=
  | SysSocket
  | SysInetPton (addr : list byte)
  | SysConnect (fd sin_addr sin_port : Z)
  | SysClose (fd : Z).

(** The two [std::runtime_error]s of [with]. *)
Inductive RuntimeError := CannotOpenSocket | CannotConnect.

(** [htons(port)] for an [int port]: the argument is converted to
    [uint16_t]; the result is that port in network byte order. *)
Definition htons (port : Z) : Z := port mod 65536.

(** [Connection::with(addr, port)], the branch compiled outside
    Windows. *)
Definition Connection_with (net : Network) (addr : list byte) (port : Z)
  : (RuntimeError + Connection) * list Syscall :=
  let sock := socketResult net in
  if decide (sock = -1) then (inl CannotOpenSocket, [SysSocket]) else
  let sin_port := htons port in
  let sin_addr := snd (inetPton net addr) in
  let calls := [SysSocket; SysInetPton addr; SysConnect sock sin_addr sin_port] in
  if decide (connectResult net sock sin_addr sin_port < 0)
  then (inl CannotConnect, calls)
  else (inr (mkConnection sock 0 DefaultTCPTimeout), calls).

(* ================================================================== *)
(** * Part II: properties                                              *)
(* ================================================================== *)

(** ** Bytes *)

Lemma byte_val_range (b : byte) : 0 <= byte_val b < 256.
Proof.
  unfold byte_val. pose proof (Byte.to_N_bounded b). lia.
Qed.

Lemma byte_val_to_uint8 (z : Z) : byte_val (to_uint8 z) = z mod 256.
Proof.
  assert (Hr : 0 <= z mod 256 < 256) by (apply Z.mod_pos_bound; lia).
  unfold to_uint8, byte_val.
  destruct (Byte.of_N (Z.to_N (z mod 256))) as [b|] eqn:E; simpl.
  - apply Byte.to_of_N in E. rewrite E. lia.
  - apply Byte.of_N_None_iff in E. lia.
Qed.

Lemma to_uint8_byte_val (b : byte) : to_uint8 (byte_val b) = b.
Proof.
  unfold to_uint8. rewrite Z.mod_small by apply byte_val_range.
  unfold byte_val. rewrite N2Z.id, Byte.of_to_N. reflexivity.
Qed.

Lemma to_uint8_mod (z : Z) : to_uint8 (z mod 256) = to_uint8 z.
Proof. unfold to_uint8. rewrite Z.mod_mod by lia. reflexivity. Qed.

Lemma to_uint8_low (a : byte) (x : Z) : to_uint8 (byte_val a + 256 * x) = a.
Proof.
  rewrite <- to_uint8_mod.
  replace (byte_val a + 256 * x) with (byte_val a + x * 256) by lia.
  rewrite Z.mod_add by lia. rewrite to_uint8_mod. apply to_uint8_byte_val.
Qed.

Lemma to_uint8_inj_small (a b : Z) :
  0 <= a < 256 → 0 <= b < 256 → to_uint8 a = to_uint8 b → a = b.
Proof.
  intros Ha Hb E. apply (f_equal byte_val) in E.
  rewrite !byte_val_to_uint8, !Z.mod_small in E by lia. exact E.
Qed.

(** A 16-bit value is the big-endian reading of its high and low byte. *)
Lemma big_endian_uint16 (v : Z) :
  is_uint16 v →
  object_value BigEndian [to_uint8 (v / 256); to_uint8 v] = v.
Proof.
  intros Hv. unfold is_uint16 in Hv. cbn.
  rewrite !byte_val_to_uint8.
  rewrite (Z.mod_small (v / 256)).
  - pose proof (Z.div_mod v 256). lia.
  - split; [apply Z.div_pos; lia | apply Z.div_lt_upper_bound; lia].
Qed.

(** ** The frame the three send functions build *)

(** What the header bytes are, host by host. *)
Lemma sendRaw_frame (host : endianness) (dat : list byte) (s : State) :
  sendRaw host dat s =
    (Ok (headerBytes host (_messageID (this s)) (length dat) ++ dat),
     addSend (headerBytes host (_messageID (this s)) (length dat) ++ dat) s).
Proof.
  assert (D : ∀ z, z / 256 / 256 = z / 65536)
    by (intros z; rewrite Z.div_div by lia; reflexivity).
  unfold sendRaw, headerBytes.
  destruct host; cbn -[Z.div Z.mul Z.add to_uint32];
    rewrite ?Z.add_0_r, ?to_uint8_low, ?D; reflexivity.
Qed.

(** Sending changes nothing of the connection object. *)
Lemma sendRaw_this (host : endianness) (dat : list byte) (s : State) :
  this (snd (sendRaw host dat s)) = this s.
Proof. rewrite sendRaw_frame. reflexivity. Qed.

(** On a little-endian host the first two bytes of the frame are the
    stored id in the byte order of the wire. *)
Lemma sendRaw_wire_id_little_endian (dat : list byte) (s : State) :
  is_uint16 (_messageID (this s)) →
  ∃ frame,
    fst (sendRaw LittleEndian dat s) = Ok frame
    ∧ wire_transaction_id frame = _messageID (this s).
Proof.
  intros Hid. rewrite sendRaw_frame. eexists. split; [reflexivity|].
  exact (big_endian_uint16 _ Hid).
Qed.

(** On a little-endian host the length field is the payload size modulo
    256: the cast reads 16-bit halves of [size] and keeps the low byte of
    each. *)
Lemma sendRaw_length_field (dat : list byte) (s : State) :
  Z.of_nat (length dat) < 65536 →
  ∃ frame,
    fst (sendRaw LittleEndian dat s) = Ok frame
    ∧ drop 6 frame = dat
    ∧ wire_length frame = Z.of_nat (length dat) mod 256.
Proof.
  intros Hlen. rewrite sendRaw_frame. eexists. split; [reflexivity|].
  split; [reflexivity|].
  unfold wire_length, headerBytes, to_uint32.
  rewrite (Z.mod_small (Z.of_nat _) 4294967296) by lia.
  rewrite (Z.div_small (Z.of_nat _)) by lia.
  cbn -[Z.mul Z.add Z.modulo]. rewrite take_0. cbn -[Z.mul Z.add Z.modulo].
  rewrite !byte_val_to_uint8. rewrite (Z.mod_small 0) by lia. lia.
Qed.

Lemma sendRaw_length_field_small (dat : list byte) (s : State) :
  Z.of_nat (length dat) < 256 →
  ∃ frame,
    fst (sendRaw LittleEndian dat s) = Ok frame
    ∧ drop 6 frame = dat
    ∧ wire_length frame = Z.of_nat (length dat).
Proof.
  intros Hlen.
  destruct (sendRaw_length_field dat s) as (frame & Hf & Hd & Hl); [lia|].
  exists frame. rewrite Hl, Z.mod_small by lia. auto.
Qed.

(** C2 (defect in the code): the length field is to equal the payload's
    byte count for every payload of at most 65535 bytes.  On a
    little-endian host a payload of 256 bytes is framed, by each of
    [sendRequest], [sendResponse] and [sendException], with the length
    bytes [00 00]: the frame declares 0 bytes and carries 256. *)
Theorem C2_length_field_of_256_bytes :
  let codec := rawCodec (λ _, false) in
  let dat := replicate 256 x07 in
  let frame := [x00; x00; x00; x00; x00; x00] ++ dat in
  fst (sendRequest LittleEndian dat (clientState 0 [])) = Ok frame
  ∧ fst (sendResponse LittleEndian dat (clientState 0 [])) = Ok frame
  ∧ fst (sendException LittleEndian (ExceptionOfRaw dat) (clientState 0 [])) = Ok frame
  ∧ wire_length frame = 0
  ∧ length (drop 6 frame) = 256%nat.
Proof. vm_compute. repeat split; reflexivity. Qed.




(** C6 (amended): [sendRequest] allocates nothing.  It puts the stored
    [_messageID] in the header and leaves the connection object as it
    was, so two consecutive calls carry the same transaction-id bytes. *)
Theorem C6_sendRequest_reuses_stored_id (host : endianness) `{codec : PduCodec}
    (req1 req2 : ModbusRequest) (s : State) :
  ∃ f1 f2,
    sendRequest host req1 s = (Ok f1, addSend f1 s)
    ∧ sendRequest host req2 (addSend f1 s) = (Ok f2, addSend f2 (addSend f1 s))
    ∧ take 2 f1 = [uint8_of_uint16 host (_messageID (this s)) 1;
                   uint8_of_uint16 host (_messageID (this s)) 0]
    ∧ take 2 f2 = take 2 f1
    ∧ this (addSend f2 (addSend f1 s)) = this s.
Proof.
  unfold sendRequest. do 2 eexists.
  split; [apply sendRaw_frame|]. split; [apply sendRaw_frame|].
  destruct host; repeat split; reflexivity.
Qed.

(** C6 as stated fails: two consecutive [sendRequest] calls of a
    connection whose stored id is 5 both send transaction id 5, and the
    stored id is still 5 afterwards. *)
Lemma C6_same_id_twice_counterexample :
  let codec := rawCodec (λ _, false) in
  let s1 := snd (sendRequest LittleEndian [x01] (clientState 5 [])) in
  let s2 := snd (sendRequest LittleEndian [x02] s1) in
  sendCalls (sock s2) =
    [[x00; x05; x00; x00; x00; x01; x01];
     [x00; x05; x00; x00; x00; x01; x02]]
  ∧ _messageID (this s2) = 5.
Proof. split; reflexivity. Qed.

(** ** One read, then the header *)

Lemma recv_bytes (len : nat) (s : State) (bs : list byte) (q : list RecvEvent) :
  inbox (sock s) = RecvBytes bs :: q →
  recv len s =
    (Ok (Z.of_nat (length (take len bs)),
         take len bs ++ replicate (len - length (take len bs)) x00),
     setInbox (unread len bs q) s).
Proof. intros H. unfold recv. rewrite H. reflexivity. Qed.

Lemma resize_received (len : nat) (got : list byte) :
  resize (got ++ replicate (len - length got) x00)
         (Z.to_nat (Z.of_nat (length got))) = got.
Proof.
  unfold resize. rewrite Nat2Z.id, take_app_length, length_app.
  replace (length got - (length got + length (replicate (len - length got) x00)))%nat
    with 0%nat by lia.
  apply app_nil_r.
Qed.

Lemma received_size (got : list byte) :
  got ≠ [] → Z.of_nat (length got) ≠ -1 ∧ Z.of_nat (length got) ≠ 0.
Proof. destruct got; [congruence | cbn; lia]. Qed.

Ltac unfold_steps :=
  unfold read_uint16, erase_front, getMessageId, setMessageId, getTimeout,
    poll, logCall, throw, throwException, undefined, liftFromRaw,
    mbind, M_bind, mret, M_ret.

(** [awaitResponse] after a successful wait and a read that found
    bytes: the closed form, on the bytes of that one read. *)
Lemma awaitResponse_received (host : endianness) `{codec : PduCodec}
    (s : State) (bs : list byte) (q : list RecvEvent) :
  0 < pollResult (sock s) (_timeout (this s)) →
  inbox (sock s) = RecvBytes bs :: q →
  take 1024 bs ≠ [] →
  awaitResponse host s =
    responseOutcome host (take 1024 bs) (setInbox (unread 1024 bs q) s).
Proof.
  intros Hp Hin Hne. unfold awaitResponse.
  unfold mbind, M_bind at 1. unfold getTimeout at 1.
  unfold M_bind at 1. unfold poll at 1.
  rewrite decide_False by lia.
  unfold M_bind at 1. rewrite (recv_bytes _ _ _ _ Hin), resize_received.
  destruct (received_size _ Hne) as [H1 H0].
  rewrite !decide_False by assumption.
  generalize (unread 1024 bs q). generalize (take 1024 bs).
  intros r q'. unfold responseOutcome. unfold_steps.
  repeat (case_decide; cbn [this setInbox]; try reflexivity; try contradiction).
  destruct (exceptionExist (drop 6 r)); reflexivity.
Qed.

Lemma awaitRequest_received (host : endianness) `{codec : PduCodec}
    (s : State) (bs : list byte) (q : list RecvEvent) :
  0 < pollResult (sock s) (60 * 1000) →
  inbox (sock s) = RecvBytes bs :: q →
  take 1024 bs ≠ [] →
  awaitRequest host s =
    requestOutcome host (take 1024 bs) (setInbox (unread 1024 bs q) s).
Proof.
  intros Hp Hin Hne. unfold awaitRequest.
  unfold mbind, M_bind at 1. unfold poll at 1.
  rewrite decide_False by lia.
  unfold M_bind at 1. rewrite (recv_bytes _ _ _ _ Hin), resize_received.
  destruct (received_size _ Hne) as [H1 H0].
  rewrite !decide_False by assumption.
  generalize (unread 1024 bs q). generalize (take 1024 bs).
  intros r q'. unfold requestOutcome. unfold_steps.
  repeat (case_decide; cbn [this setInbox]; try reflexivity; try contradiction).
Qed.

Lemma awaitRawMessage_received (s : State) (bs : list byte) (q : list RecvEvent) :
  0 < pollResult (sock s) (60 * 1000) →
  inbox (sock s) = RecvBytes bs :: q →
  take 1024 bs ≠ [] →
  awaitRawMessage s = (Ok (take 1024 bs), setInbox (unread 1024 bs q) s).
Proof.
  intros Hp Hin Hne. unfold awaitRawMessage.
  unfold mbind, M_bind at 1. unfold poll at 1.
  rewrite decide_False by lia.
  unfold M_bind at 1. rewrite (recv_bytes _ _ _ _ Hin), resize_received.
  destruct (received_size _ Hne) as [H1 H0].
  rewrite !decide_False by assumption. reflexivity.
Qed.

Lemma addCalls_addCalls (cs1 cs2 : list CodecCall) (s : State) :
  addCalls cs2 (addCalls cs1 s) = addCalls (cs1 ++ cs2) s.
Proof. unfold addCalls. cbn. rewrite app_assoc. reflexivity. Qed.

(** ** Classification of receive failures *)

Lemma recv_returns_nextRecvSize (s : State) :
  ∃ buf s', recv 1024 s = (Ok (nextRecvSize s, buf), s').
Proof.
  unfold recv, nextRecvSize.
  destruct (inbox (sock s)) as [|[|bs] q]; eauto.
Qed.

(** A wait that does not report the socket readable: expiry ([::poll]
    returns 0) and failure of the wait itself (a negative value) are
    classified alike. *)
Lemma wait_not_positive (host : endianness) `{codec : PduCodec}
    (op : ReceiveOp) (s : State) :
  pollResult (sock s) (waitWindow op (this s)) <= 0 →
  thrownBy host op s = Some (ExceptionOfCode (classification op WaitExpired)).
Proof.
  intros Hp. destruct op; cbn in Hp |- *.
  - unfold awaitRawMessage. unfold mbind, M_bind at 1. unfold poll at 1.
    rewrite decide_True by lia. reflexivity.
  - unfold awaitRequest. unfold mbind, M_bind at 1. unfold poll at 1.
    rewrite decide_True by lia. reflexivity.
  - unfold awaitResponse. unfold mbind, M_bind at 1. unfold getTimeout at 1.
    unfold M_bind at 1. unfold poll at 1.
    rewrite decide_True by lia. reflexivity.
Qed.

Lemma read_not_positive (host : endianness) `{codec : PduCodec}
    (op : ReceiveOp) (s : State) (code : MBErrorCode) :
  0 < pollResult (sock s) (waitWindow op (this s)) →
  (nextRecvSize s = -1 ∧ code = ProtocolError)
  ∨ (nextRecvSize s = 0 ∧ code = ConnectionClosed) →
  thrownBy host op s = Some (ExceptionOfCode code).
Proof.
  intros Hp Hsize.
  destruct (recv_returns_nextRecvSize s) as (buf & s' & Hrecv).
  destruct op; cbn in Hp |- *.
  - unfold awaitRawMessage. unfold mbind, M_bind at 1. unfold poll at 1.
    rewrite decide_False by lia. unfold M_bind at 1. rewrite Hrecv.
    destruct Hsize as [[-> ->]|[-> ->]]; reflexivity.
  - unfold awaitRequest. unfold mbind, M_bind at 1. unfold poll at 1.
    rewrite decide_False by lia. unfold M_bind at 1. rewrite Hrecv.
    destruct Hsize as [[-> ->]|[-> ->]]; reflexivity.
  - unfold awaitResponse. unfold mbind, M_bind at 1. unfold getTimeout at 1.
    unfold M_bind at 1. unfold poll at 1.
    rewrite decide_False by lia. unfold M_bind at 1. rewrite Hrecv.
    destruct Hsize as [[-> ->]|[-> ->]]; reflexivity.
Qed.

(** C7: each receive operation classifies its failures as the
    specification says.  Expiry of the wait ([::poll] returns 0 for the
    window the operation passes: 60 * 1000 ms in [awaitRequest] and
    [awaitRawMessage], [_timeout] in [awaitResponse]) throws [Timeout] in
    [awaitRequest] and [awaitResponse] and [ConnectionClosed] in
    [awaitRawMessage]; in all three a zero-byte read throws
    [ConnectionClosed] and a failed read throws [ProtocolError]. *)
Theorem C7_receive_failures_classified (host : endianness) `{codec : PduCodec}
    (op : ReceiveOp) (s : State) (f : ReceiveFailure) :
  occurs op s f →
  thrownBy host op s = Some (ExceptionOfCode (classification op f)).
Proof.
  destruct f; cbn [occurs].
  - intros Hp. apply wait_not_positive. lia.
  - intros [Hp Hz]. apply read_not_positive; [assumption|].
    right. destruct op; auto.
  - intros [Hp Hz]. apply read_not_positive; [assumption|].
    left. destruct op; auto.
Qed.

Lemma C7_receive_failures_classified_witness :
  let codec := rawCodec (λ _, false) in
  (occurs RequestOp (pollingState 0 []) WaitExpired
   ∧ thrownBy LittleEndian RequestOp (pollingState 0 [])
     = Some (ExceptionOfCode Timeout))
  ∧ (occurs ResponseOp (pollingState 0 []) WaitExpired
     ∧ thrownBy LittleEndian ResponseOp (pollingState 0 [])
       = Some (ExceptionOfCode Timeout))
  ∧ (occurs RawMessageOp (pollingState 0 []) WaitExpired
     ∧ thrownBy LittleEndian RawMessageOp (pollingState 0 [])
       = Some (ExceptionOfCode ConnectionClosed))
  ∧ (occurs ResponseOp (pollingState 1 [RecvBytes []]) ZeroByteRead
     ∧ thrownBy LittleEndian ResponseOp (pollingState 1 [RecvBytes []])
       = Some (ExceptionOfCode ConnectionClosed))
  ∧ (occurs RequestOp (pollingState 1 [RecvFails]) ReadFailed
     ∧ thrownBy LittleEndian RequestOp (pollingState 1 [RecvFails])
       = Some (ExceptionOfCode ProtocolError)).
Proof.
  intros codec.
  split; [split; [reflexivity|] | split; [split; [reflexivity|] |
  split; [split; [reflexivity|] | split; [split; [split; [cbn; lia | reflexivity]|] |
  split; [split; [cbn; lia | reflexivity]|]]]]].
  - apply (C7_receive_failures_classified LittleEndian RequestOp
             (pollingState 0 []) WaitExpired). reflexivity.
  - apply (C7_receive_failures_classified LittleEndian ResponseOp
             (pollingState 0 []) WaitExpired). reflexivity.
  - apply (C7_receive_failures_classified LittleEndian RawMessageOp
             (pollingState 0 []) WaitExpired). reflexivity.
  - apply (C7_receive_failures_classified LittleEndian ResponseOp
             (pollingState 1 [RecvBytes []]) ZeroByteRead).
    split; [cbn; lia | reflexivity].
  - apply (C7_receive_failures_classified LittleEndian RequestOp
             (pollingState 1 [RecvFails]) ReadFailed).
    split; [cbn; lia | reflexivity].
Defined.

(** ** The header fields the code reads, and those it does not *)




(** ** Correlation *)

(** The test [awaitResponse] makes: the first two bytes of the read, in
    the byte order of the host, against the stored id.  A mismatch
    throws [InvalidMessageID] before any byte reaches the codec. *)
Lemma awaitResponse_id_mismatch (host : endianness) `{codec : PduCodec}
    (s : State) (bs : list byte) (q : list RecvEvent) :
  0 < pollResult (sock s) (_timeout (this s)) →
  inbox (sock s) = RecvBytes bs :: q →
  (2 <= length bs)%nat →
  object_value host (take 2 bs) ≠ _messageID (this s) →
  awaitResponse host s =
    (Throw (ExceptionOfCode InvalidMessageID),
     setInbox (unread 1024 bs q) s).
Proof.
  intros Hp Hin Hlen Hne.
  assert (Hlen' : (2 <= length (take 1024 bs))%nat)
    by (rewrite length_take; lia).
  rewrite (awaitResponse_received host s bs q Hp Hin)
    by (destruct (take 1024 bs); [cbn in Hlen'; lia | discriminate]).
  unfold responseOutcome.
  rewrite decide_False by lia.
  rewrite take_take. change (2 `min` 1024)%nat with 2%nat.
  rewrite decide_True by exact Hne. reflexivity.
Qed.

(** On a big-endian host that test compares the transaction id of the
    wire format. *)
Lemma awaitResponse_wire_id_mismatch_big_endian `{codec : PduCodec}
    (s : State) (bs : list byte) (q : list RecvEvent) :
  0 < pollResult (sock s) (_timeout (this s)) →
  inbox (sock s) = RecvBytes bs :: q →
  (2 <= length bs)%nat →
  wire_transaction_id bs ≠ _messageID (this s) →
  awaitResponse BigEndian s =
    (Throw (ExceptionOfCode InvalidMessageID),
     setInbox (unread 1024 bs q) s)
  ∧ codecCalls (snd (awaitResponse BigEndian s)) = codecCalls s.
Proof.
  intros Hp Hin Hlen Hne.
  rewrite (awaitResponse_id_mismatch BigEndian s bs q Hp Hin Hlen Hne).
  split; reflexivity.
Qed.

(** On a little-endian host it compares the byte-swapped id: for ids
    whose two bytes differ, the frame that echoes the id is rejected and
    the frame with the swapped bytes passes. *)
Lemma little_endian_reads_swapped (b0 b1 : byte) :
  object_value LittleEndian [b0; b1] = object_value BigEndian [b1; b0].
Proof. reflexivity. Qed.

(** Past the correlation test, the exception detector decides: a
    payload it recognises is thrown as the decoded exception and the
    response decoder is not called. *)
Lemma awaitResponse_exception_precedence (host : endianness) `{codec : PduCodec}
    (s : State) (bs : list byte) (q : list RecvEvent) :
  0 < pollResult (sock s) (_timeout (this s)) →
  inbox (sock s) = RecvBytes bs :: q →
  (6 <= length bs)%nat →
  object_value host (take 2 bs) = _messageID (this s) →
  exceptionExist (drop 6 (take 1024 bs)) = true →
  awaitResponse host s =
    (Throw (ExceptionOfRaw (drop 6 (take 1024 bs))),
     addCalls [CallExist (drop 6 (take 1024 bs));
               CallExceptionOfRaw (drop 6 (take 1024 bs))]
              (setInbox (unread 1024 bs q) s)).
Proof.
  intros Hp Hin Hlen Heq Hex.
  assert (Hlen' : (6 <= length (take 1024 bs))%nat)
    by (rewrite length_take; lia).
  rewrite (awaitResponse_received host s bs q Hp Hin)
    by (destruct (take 1024 bs); [cbn in Hlen'; lia | discriminate]).
  unfold responseOutcome.
  rewrite decide_False by lia.
  rewrite take_take. change (2 `min` 1024)%nat with 2%nat.
  rewrite decide_False by (intros NE; exact (NE Heq)).
  rewrite decide_False by lia.
  rewrite Hex, addCalls_addCalls. reflexivity.
Qed.

(** Whatever the transaction id, a read whose payload the detector
    recognises never yields a response object. *)
Lemma awaitResponse_no_response_on_exception (host : endianness)
    `{codec : PduCodec} (s : State) (bs : list byte) (q : list RecvEvent) :
  0 < pollResult (sock s) (_timeout (this s)) →
  inbox (sock s) = RecvBytes bs :: q →
  take 1024 bs ≠ [] →
  exceptionExist (drop 6 (take 1024 bs)) = true →
  ∀ res, fst (awaitResponse host s) ≠ Ok res.
Proof.
  intros Hp Hin Hne Hex res.
  rewrite (awaitResponse_received host s bs q Hp Hin Hne).
  unfold responseOutcome. rewrite Hex.
  repeat case_decide; discriminate.
Qed.

(** C3 (defect in the code): a reply whose transaction id differs from
    the id of the last request is to fail with [InvalidMessageID].  On a
    little-endian host the request of a connection whose stored id is 5
    goes out with the bytes [00 05]; a reply whose transaction id is
    1280 (bytes [05 00]) passes the test, and its payload is handed to
    the exception detector and the response decoder. *)
Theorem C3_reply_with_other_id_accepted :
  let codec := rawCodec (λ _, false) in
  let reply := [x05; x00; x00; x00; x00; x01; x01] in
  let sent := sendRequest LittleEndian [x01] (clientState 5 [RecvBytes reply]) in
  fst sent = Ok [x00; x05; x00; x00; x00; x01; x01]
  ∧ _messageID (this (snd sent)) = 5
  ∧ wire_transaction_id reply = 1280
  ∧ awaitResponse LittleEndian (snd sent) =
      (Ok [x01],
       addCalls [CallExist [x01]; CallResponseFromRaw [x01]]
                (setInbox [] (snd sent))).
Proof. vm_compute. repeat split; reflexivity. Qed.

(** C4 (defect in the code): a reply that carries the id of the request
    and a payload the detector recognises is to fail with the decoded
    exception.  On a little-endian host, with the stored id 5, the reply
    that echoes transaction id 5 (bytes [00 05]) fails with
    [InvalidMessageID] instead: the exception detector is never asked. *)
Theorem C4_echoed_exception_reply_rejected :
  let codec := rawCodec (λ _, true) in
  let reply := [x00; x05; x00; x00; x00; x02; x01; x81] in
  let sent := sendRequest LittleEndian [x01; x01] (clientState 5 [RecvBytes reply]) in
  fst sent = Ok [x00; x05; x00; x00; x00; x02; x01; x01]
  ∧ wire_transaction_id reply = _messageID (this (snd sent))
  ∧ exceptionExist (drop 6 reply) = true
  ∧ awaitResponse LittleEndian (snd sent) =
      (Throw (ExceptionOfCode InvalidMessageID), setInbox [] (snd sent))
  ∧ codecCalls (snd (awaitResponse LittleEndian (snd sent))) = [].
Proof. vm_compute. repeat split; reflexivity. Qed.

(** ** How much a receive operation reads *)

Lemma requestOutcome_effects (host : endianness) `{codec : PduCodec}
    (r : list byte) (s : State) :
  sock (snd (requestOutcome host r s)) = sock s
  ∧ ∃ cs, codecCalls (snd (requestOutcome host r s)) = codecCalls s ++ cs
          ∧ ∀ c, c ∈ cs → callBytes c = drop 6 r.
Proof.
  unfold requestOutcome. repeat case_decide; cbn; (split; [reflexivity|]).
  - exists []. rewrite app_nil_r. split; [reflexivity | intros c Hc; inversion Hc].
  - exists []. rewrite app_nil_r. split; [reflexivity | intros c Hc; inversion Hc].
  - eexists. split; [reflexivity|].
    intros c Hc. apply list_elem_of_singleton in Hc. subst c. reflexivity.
Qed.

Lemma responseOutcome_effects (host : endianness) `{codec : PduCodec}
    (r : list byte) (s : State) :
  sock (snd (responseOutcome host r s)) = sock s
  ∧ ∃ cs, codecCalls (snd (responseOutcome host r s)) = codecCalls s ++ cs
          ∧ ∀ c, c ∈ cs → callBytes c = drop 6 r.
Proof.
  unfold responseOutcome.
  repeat case_decide; [| | |destruct (exceptionExist (drop 6 r))]; cbn;
    (split; [reflexivity|]).
  1-3: exists []; rewrite app_nil_r;
       (split; [reflexivity | intros c Hc; inversion Hc]).
  all: rewrite <- app_assoc; eexists; (split; [reflexivity|]);
       intros c Hc; cbn in Hc;
       repeat (apply elem_of_cons in Hc; destruct Hc as [->|Hc]; [reflexivity|]);
       inversion Hc.
Qed.

(** C8 as stated fails.  A frame of eight bytes that arrives as seven
    bytes and then one is handed to the codec with one byte of its
    two-byte payload, and the last byte stays unread; of a frame of 1030
    bytes the codec gets the first 1018 payload bytes, and six stay
    unread. *)
Lemma C8_split_frame_counterexample :
  let codec := rawCodec (λ _, false) in
  let big := [x00; x00; x00; x00; x04; x00] ++ replicate 1024 x07 in
  awaitResponse LittleEndian
    (clientState 0 [RecvBytes [x00; x00; x00; x00; x00; x02; x01];
                    RecvBytes [x02]])
  = (Ok [x01],
     addCalls [CallExist [x01]; CallResponseFromRaw [x01]]
              (clientState 0 [RecvBytes [x02]]))
  ∧ awaitResponse LittleEndian (clientState 0 [RecvBytes big])
    = (Ok (replicate 1018 x07),
       addCalls [CallExist (replicate 1018 x07);
                 CallResponseFromRaw (replicate 1018 x07)]
                (clientState 0 [RecvBytes (replicate 6 x07)])).
Proof. vm_compute. split; reflexivity. Qed.

(** ** Reads shorter than a header *)





(** ** Moves and ownership *)

Lemma moveAssign_distinct (self other : nat) (w : World) (c o : Connection) :
  self ≠ other →
  objects w !! self = Some c →
  objects w !! other = Some o →
  moveAssign self other w =
    Some (mkWorld
            (<[other := movedFrom o]>
               (<[self := mkConnection (_sockfd o) (_messageID o) (_timeout c)]>
                  (objects w)))
            (closeCalls w ++ snd (closeUnlessShared c o))).
Proof.
  intros Hne Hc Ho. unfold moveAssign. rewrite Hc, Ho. cbn.
  rewrite decide_False by exact Hne.
  unfold closeUnlessShared, closeSockfd.
  destruct (decide (_sockfd c ≠ -1 ∧ _sockfd c ≠ _sockfd o)); reflexivity.
Qed.

(** Assigning an object to itself is the guard at the head of
    [operator=]: nothing moves. *)
Lemma moveAssign_self (self : nat) (w : World) (c : Connection) :
  objects w !! self = Some c → moveAssign self self w = Some w.
Proof.
  intros Hc. unfold moveAssign. rewrite Hc. cbn.
  rewrite decide_True by reflexivity. reflexivity.
Qed.

Lemma moveConstruct_fresh (self moved : nat) (w : World) (m : Connection) :
  objects w !! self = None →
  objects w !! moved = Some m →
  moveConstruct self moved w =
    Some (mkWorld
            (<[moved := movedFrom m]>
               (<[self := mkConnection (_sockfd m) (_messageID m) DefaultTCPTimeout]>
                  (objects w)))
            (closeCalls w)).
Proof.
  intros Hs Hm. unfold moveConstruct. rewrite Hs, Hm. cbn.
  unfold closeUnlessShared. cbn.
  rewrite decide_False by (intros [H _]; apply H; reflexivity).
  rewrite app_nil_r. reflexivity.
Qed.

(** What the guard closes: the descriptor the destination owned, when
    the source holds another one; nothing otherwise. *)
Lemma closeUnlessShared_closed (c o : Connection) :
  snd (closeUnlessShared c o) =
    if decide (0 <= _sockfd c ∧ _sockfd c ≠ _sockfd o)
    then [_sockfd c] else [].
Proof.
  unfold closeUnlessShared, closeSockfd.
  repeat case_decide; cbn; try reflexivity; lia.
Qed.

(** The shape both moves leave the objects in. *)
Lemma moved_shape (w w' : World) (self other : nat) :
  self ≠ other →
  moveAssign self other w = Some w' ∨ moveConstruct self other w = Some w' →
  ∃ o t closed,
    objects w !! other = Some o
    ∧ objects w' =
        <[other := movedFrom o]>
          (<[self := mkConnection (_sockfd o) (_messageID o) t]> (objects w))
    ∧ closeCalls w' = closeCalls w ++ closed
    ∧ ∀ c, objects w !! self = Some c →
           closed = if decide (0 <= _sockfd c ∧ _sockfd c ≠ _sockfd o)
                    then [_sockfd c] else [].
Proof.
  intros Hne [H|H].
  - destruct (objects w !! self) as [c|] eqn:Hc.
    2: { unfold moveAssign in H. rewrite Hc in H. discriminate. }
    destruct (objects w !! other) as [o|] eqn:Ho.
    2: { unfold moveAssign in H. rewrite Hc, Ho in H. discriminate. }
    rewrite (moveAssign_distinct self other w c o Hne Hc Ho) in H.
    injection H as <-. exists o, (_timeout c), (snd (closeUnlessShared c o)).
    cbn. repeat split; try reflexivity.
    intros c' [= <-]. apply closeUnlessShared_closed.
  - destruct (objects w !! self) as [c|] eqn:Hc.
    { unfold moveConstruct in H. rewrite Hc in H. discriminate. }
    destruct (objects w !! other) as [o|] eqn:Ho.
    2: { unfold moveConstruct in H. rewrite Hc, Ho in H. discriminate. }
    rewrite (moveConstruct_fresh self other w o Hc Ho) in H.
    injection H as <-. exists o, DefaultTCPTimeout, [].
    cbn. rewrite app_nil_r. repeat split; try reflexivity.
    intros c' [=].
Qed.

Lemma destroy_exclusive (self : nat) (w w' : World) :
  exclusive w → destroy self w = Some w' → exclusive w'.
Proof.
  intros Hex H. unfold destroy in H.
  destruct (objects w !! self) as [c|]; [|discriminate].
  cbn in H. injection H as <-.
  intros a b ca cb fd Ha Hb Hoa Hob. cbn in Ha, Hb.
  apply lookup_delete_Some in Ha as [_ Ha].
  apply lookup_delete_Some in Hb as [_ Hb].
  exact (Hex a b ca cb fd Ha Hb Hoa Hob).
Qed.

(** C9 (amended): after a move into another object (by move
    construction, or by move assignment to a different object) the
    source holds the sentinel -1 and its destructor closes nothing; the
    destination holds the descriptor the source held; move assignment
    onto an object that owns a different live descriptor closes exactly
    that descriptor; and if no descriptor had two owners before the
    move, none has after.  Assigning an object to itself changes
    nothing. *)
Theorem C9_move_transfers_ownership (w w' : World) (self other : nat) :
  moveAssign self other w = Some w' ∨ moveConstruct self other w = Some w' →
  (self = other → w' = w)
  ∧ (self ≠ other →
     (∃ o', objects w' !! other = Some o' ∧ _sockfd o' = -1)
     ∧ (∃ w'', destroy other w' = Some w'' ∧ closeCalls w'' = closeCalls w')
     ∧ (∃ o c', objects w !! other = Some o ∧ objects w' !! self = Some c'
                ∧ _sockfd c' = _sockfd o)
     ∧ (∀ c o fd, objects w !! self = Some c → objects w !! other = Some o →
                  owns c fd → _sockfd o ≠ fd →
                  closeCalls w' = closeCalls w ++ [fd])
     ∧ (exclusive w → exclusive w')).
Proof.
  intros Hmove. split.
  { intros <-. destruct Hmove as [H|H].
    - destruct (objects w !! self) as [c|] eqn:Hc.
      + rewrite (moveAssign_self self w c Hc) in H. congruence.
      + unfold moveAssign in H. rewrite Hc in H. discriminate.
    - unfold moveConstruct in H.
      destruct (objects w !! self) as [c|] eqn:Hc; discriminate. }
  intros Hne.
  destruct (moved_shape w w' self other Hne Hmove)
    as (o & t & closed & Ho & Hobj & Hcalls & Hclosed).
  assert (Hother : objects w' !! other = Some (movedFrom o))
    by (rewrite Hobj; apply lookup_insert_eq).
  assert (Hself : objects w' !! self =
                  Some (mkConnection (_sockfd o) (_messageID o) t)).
  { rewrite Hobj, lookup_insert_ne by congruence. apply lookup_insert_eq. }
  split; [|split; [|split; [|split]]].
  - exists (movedFrom o). split; [exact Hother | reflexivity].
  - unfold destroy. rewrite Hother. cbn.
    eexists. split; [reflexivity|]. cbn.
    rewrite decide_False by lia. apply app_nil_r.
  - exists o. eexists. split; [exact Ho|]. split; [exact Hself | reflexivity].
  - intros c o0 fd Hc Ho0 [Hfd Hlive] Hdiff.
    rewrite Ho in Ho0. injection Ho0 as <-.
    rewrite Hcalls, (Hclosed c Hc).
    rewrite decide_True by (subst fd; split; [lia | congruence]).
    subst fd. reflexivity.
  - intros Hex a b ca cb fd Ha Hb [Hfa Hla] [Hfb Hlb].
    rewrite Hobj in Ha, Hb.
    apply lookup_insert_Some in Ha as [[<- <-]|[Hao Ha]];
      [cbn in Hfa; lia|].
    apply lookup_insert_Some in Hb as [[<- <-]|[Hbo Hb]];
      [cbn in Hfb; lia|].
    apply lookup_insert_Some in Ha as [[<- <-]|[Has Ha]];
      apply lookup_insert_Some in Hb as [[<- <-]|[Hbs Hb]].
    + reflexivity.
    + cbn in Hfa. exfalso. apply Hbo.
      apply (Hex other b o cb fd Ho Hb); split; assumption.
    + cbn in Hfb. exfalso. apply Hao.
      apply (Hex other a o ca fd Ho Ha); split; assumption.
    + apply (Hex a b ca cb fd Ha Hb); split; assumption.
Qed.

Lemma C9_move_transfers_ownership_witness :
  let w := twoConnections in
  let w' := mkWorld (<[2%nat := mkConnection (-1) 7 DefaultTCPTimeout]>
                       (<[1%nat := mkConnection 4 7 DefaultTCPTimeout]> ∅))
                    [3] in
  (moveAssign 1 2 w = Some w' ∨ moveConstruct 1 2 w = Some w')
  ∧ 1%nat ≠ 2%nat
  ∧ (∃ o', objects w' !! 2%nat = Some o' ∧ _sockfd o' = -1)
  ∧ (∃ w'', destroy 2 w' = Some w'' ∧ closeCalls w'' = closeCalls w')
  ∧ (∃ o c', objects w !! 2%nat = Some o ∧ objects w' !! 1%nat = Some c'
             ∧ _sockfd c' = _sockfd o)
  ∧ (∀ c o fd, objects w !! 1%nat = Some c → objects w !! 2%nat = Some o →
               owns c fd → _sockfd o ≠ fd →
               closeCalls w' = closeCalls w ++ [fd])
  ∧ (exclusive w → exclusive w').
Proof.
  intros w w'.
  assert (Hne : 1%nat ≠ 2%nat) by discriminate.
  assert (Hmove : moveAssign 1 2 w = Some w' ∨ moveConstruct 1 2 w = Some w')
    by (left; vm_compute; reflexivity).
  split; [exact Hmove|]. split; [exact Hne|].
  exact (proj2 (C9_move_transfers_ownership w w' 1 2 Hmove) Hne).
Defined.

(** C9 as stated fails for the one move that has no other object: the
    guard [this == &other] makes [c = std::move(c)] a no-op, so the
    object moved from still holds its descriptor and its destructor
    closes it. *)
Lemma C9_self_assignment_counterexample :
  let w := twoConnections in
  moveAssign 1 1 w = Some w
  ∧ (∃ c, objects w !! 1%nat = Some c ∧ _sockfd c = 3)
  ∧ (∃ w'', destroy 1 w = Some w'' ∧ closeCalls w'' = [3]).
Proof.
  intros w. split; [vm_compute; reflexivity|].
  split; eexists; (split; [vm_compute; reflexivity | reflexivity]).
Qed.

(* ================================================================== *)
(** * Part III: further properties of the code                         *)
(* ================================================================== *)

(** ** Two bytes and the 16-bit object they form *)

Lemma object_bytes_value (host : endianness) (t0 t1 : byte) :
  object_bytes host 2 (object_value host [t0; t1]) = [t0; t1].
Proof.
  assert (D : ∀ a b : byte, (byte_val a + 256 * (byte_val b + 256 * 0)) / 256
                            = byte_val b).
  { intros a b. pose proof (byte_val_range a).
    replace (byte_val a + 256 * (byte_val b + 256 * 0))
      with (byte_val a + byte_val b * 256) by lia.
    rewrite Z.div_add by lia. rewrite Z.div_small by lia. lia. }
  destruct host; cbn -[Z.div Z.mul Z.add];
    rewrite D, to_uint8_low, to_uint8_byte_val; reflexivity.
Qed.

Lemma object_value_bytes (host : endianness) (v : Z) :
  is_uint16 v → object_value host (object_bytes host 2 v) = v.
Proof.
  intros Hv. pose proof (big_endian_uint16 v Hv) as Hbe.
  destruct host; [|exact Hbe]. exact Hbe.
Qed.

(** The id test of [awaitResponse], on the bytes: the two bytes read
    form the stored id exactly when they are its object bytes. *)
Lemma object_value_eq_iff (host : endianness) (t0 t1 : byte) (v : Z) :
  is_uint16 v →
  object_value host [t0; t1] = v ↔ [t0; t1] = object_bytes host 2 v.
Proof.
  intros Hv. split.
  - intros <-. symmetry. apply object_bytes_value.
  - intros ->. apply object_value_bytes. exact Hv.
Qed.

(** The first two bytes [sendRaw] emits are the object bytes of the
    stored id in reverse order, on every host. *)
Lemma headerBytes_id (host : endianness) (id : Z) (n : nat) :
  take 2 (headerBytes host id n) = reverse (object_bytes host 2 id).
Proof. destruct host; reflexivity. Qed.

Lemma headerBytes_length (host : endianness) (id : Z) (n : nat) :
  length (headerBytes host id n) = 6%nat.
Proof. destruct host; reflexivity. Qed.

(** ** What the send functions put on the wire *)

(** X1: on every host, each of [sendRequest], [sendResponse] and
    [sendException] returns a frame of six header bytes followed by the
    [toRaw()] bytes unchanged, with both protocol-id bytes zero; it
    hands exactly that frame to [::send], once, and touches nothing
    else of the connection. *)
Theorem X1_send_frame_layout (host : endianness) `{codec : PduCodec}
    (req : ModbusRequest) (res : ModbusResponse) (ex : ModbusException)
    (s : State) :
  let framed (dat : list byte) (r : result (list byte) * State) :=
    ∃ frame, r = (Ok frame, addSend frame s)
             ∧ length frame = (6 + length dat)%nat
             ∧ drop 6 frame = dat
             ∧ take 2 (drop 2 frame) = [x00; x00] in
  framed (requestToRaw req) (sendRequest host req s)
  ∧ framed (responseToRaw res) (sendResponse host res s)
  ∧ framed (exceptionToRaw ex) (sendException host ex s).
Proof.
  assert (F : ∀ dat, ∃ frame,
             sendRaw host dat s = (Ok frame, addSend frame s)
             ∧ length frame = (6 + length dat)%nat
             ∧ drop 6 frame = dat
             ∧ take 2 (drop 2 frame) = [x00; x00]).
  { intros dat. eexists. split; [apply sendRaw_frame|].
    rewrite length_app, headerBytes_length.
    destruct host; repeat split; reflexivity. }
  cbv zeta. unfold sendRequest, sendResponse, sendException.
  repeat split; apply F.
Qed.

(** X2: on a little-endian host, for a payload of fewer than 65536
    bytes, the length field [sendRequest] writes equals the payload size
    exactly when the payload has fewer than 256 bytes. *)
Theorem X2_length_field_right_below_256 `{codec : PduCodec}
    (req : ModbusRequest) (s : State) :
  Z.of_nat (length (requestToRaw req)) < 65536 →
  ∃ frame,
    fst (sendRequest LittleEndian req s) = Ok frame
    ∧ (wire_length frame = Z.of_nat (length (requestToRaw req))
       ↔ Z.of_nat (length (requestToRaw req)) < 256).
Proof.
  intros Hlen. unfold sendRequest.
  destruct (sendRaw_length_field (requestToRaw req) s Hlen)
    as (frame & Hf & _ & Hl).
  exists frame. split; [exact Hf|]. rewrite Hl.
  set (n := Z.of_nat (length (requestToRaw req))) in *.
  assert (0 <= n) by (unfold n; lia).
  split; intros H1.
  - rewrite <- H1. apply Z.mod_pos_bound. lia.
  - apply Z.mod_small. lia.
Qed.

Lemma X2_length_field_right_below_256_witness :
  let codec := rawCodec (λ _, false) in
  let req := replicate 300 x07 in
  let s := clientState 0 [] in
  Z.of_nat (length (requestToRaw req)) < 65536
  ∧ ∃ frame,
      fst (sendRequest LittleEndian req s) = Ok frame
      ∧ (wire_length frame = Z.of_nat (length (requestToRaw req))
         ↔ Z.of_nat (length (requestToRaw req)) < 256).
Proof.
  intros codec req s.
  assert (Hlen : Z.of_nat (length (requestToRaw req)) < 65536)
    by (vm_compute; reflexivity).
  split; [exact Hlen|].
  exact (X2_length_field_right_below_256 req s Hlen).
Defined.

(** X3: the transaction id is the caller's to set.  On a little-endian
    host, after [setMessageId(v)] the next [sendRequest] carries [v] as
    its big-endian transaction id, and [getMessageId] still returns [v]
    afterwards. *)
Theorem X3_setMessageId_sets_wire_id `{codec : PduCodec}
    (v : Z) (req : ModbusRequest) (s : State) :
  is_uint16 v →
  ∃ frame s1 s2,
    setMessageId v s = (Ok (), s1)
    ∧ sendRequest LittleEndian req s1 = (Ok frame, s2)
    ∧ wire_transaction_id frame = v
    ∧ getMessageId s2 = (Ok v, s2).
Proof.
  intros Hv. unfold sendRequest.
  eexists _, _, _. split; [reflexivity|].
  split; [apply sendRaw_frame|].
  split; [|reflexivity].
  exact (big_endian_uint16 v Hv).
Qed.

Lemma X3_setMessageId_sets_wire_id_witness :
  let codec := rawCodec (λ _, false) in
  is_uint16 4660
  ∧ ∃ frame s1 s2,
      setMessageId 4660 (clientState 0 []) = (Ok (), s1)
      ∧ sendRequest LittleEndian [x01] s1 = (Ok frame, s2)
      ∧ wire_transaction_id frame = 4660
      ∧ getMessageId s2 = (Ok 4660, s2).
Proof.
  intros codec.
  assert (Hv : is_uint16 4660) by (unfold is_uint16; lia).
  split; [exact Hv|].
  exact (X3_setMessageId_sets_wire_id 4660 [x01] (clientState 0 []) Hv).
Defined.

(** ** Every way a receive operation can go *)

Lemma awaitRawMessage_total (s : State) :
  awaitRawMessage s =
    match receivePrelude ConnectionClosed (60 * 1000) s with
    | (inl e, s') => (Throw (ExceptionOfCode e), s')
    | (inr r, s') => (Ok r, s')
    end.
Proof.
  unfold receivePrelude.
  destruct (decide (pollResult (sock s) (60 * 1000) <= 0)) as [Hp|Hp].
  - unfold awaitRawMessage. unfold mbind, M_bind at 1. unfold poll at 1.
    rewrite decide_True by exact Hp. reflexivity.
  - destruct (inbox (sock s)) as [|[|bs] q] eqn:Hin.
    + unfold awaitRawMessage. unfold mbind, M_bind at 1. unfold poll at 1.
      rewrite decide_False by exact Hp.
      unfold M_bind at 1. unfold recv. rewrite Hin. reflexivity.
    + unfold awaitRawMessage. unfold mbind, M_bind at 1. unfold poll at 1.
      rewrite decide_False by exact Hp.
      unfold M_bind at 1. unfold recv. rewrite Hin. reflexivity.
    + cbv zeta. destruct (take 1024 bs) as [|b r] eqn:Ht.
      * unfold awaitRawMessage. unfold mbind, M_bind at 1. unfold poll at 1.
        rewrite decide_False by exact Hp.
        unfold M_bind at 1. rewrite (recv_bytes _ _ _ _ Hin), Ht. reflexivity.
      * rewrite <- Ht.
        apply awaitRawMessage_received; [lia | exact Hin | rewrite Ht; discriminate].
Qed.

Lemma awaitRequest_total (host : endianness) `{codec : PduCodec} (s : State) :
  awaitRequest host s =
    match receivePrelude Timeout (60 * 1000) s with
    | (inl e, s') => (Throw (ExceptionOfCode e), s')
    | (inr r, s') => requestOutcome host r s'
    end.
Proof.
  unfold receivePrelude.
  destruct (decide (pollResult (sock s) (60 * 1000) <= 0)) as [Hp|Hp].
  - unfold awaitRequest. unfold mbind, M_bind at 1. unfold poll at 1.
    rewrite decide_True by exact Hp. reflexivity.
  - destruct (inbox (sock s)) as [|[|bs] q] eqn:Hin.
    + unfold awaitRequest. unfold mbind, M_bind at 1. unfold poll at 1.
      rewrite decide_False by exact Hp.
      unfold M_bind at 1. unfold recv. rewrite Hin. reflexivity.
    + unfold awaitRequest. unfold mbind, M_bind at 1. unfold poll at 1.
      rewrite decide_False by exact Hp.
      unfold M_bind at 1. unfold recv. rewrite Hin. reflexivity.
    + cbv zeta. destruct (take 1024 bs) as [|b r] eqn:Ht.
      * unfold awaitRequest. unfold mbind, M_bind at 1. unfold poll at 1.
        rewrite decide_False by exact Hp.
        unfold M_bind at 1. rewrite (recv_bytes _ _ _ _ Hin), Ht. reflexivity.
      * rewrite <- Ht.
        apply awaitRequest_received; [lia | exact Hin | rewrite Ht; discriminate].
Qed.

Lemma awaitResponse_total (host : endianness) `{codec : PduCodec} (s : State) :
  awaitResponse host s =
    match receivePrelude Timeout (_timeout (this s)) s with
    | (inl e, s') => (Throw (ExceptionOfCode e), s')
    | (inr r, s') => responseOutcome host r s'
    end.
Proof.
  unfold receivePrelude.
  destruct (decide (pollResult (sock s) (_timeout (this s)) <= 0)) as [Hp|Hp].
  - unfold awaitResponse. unfold mbind, M_bind at 1. unfold getTimeout at 1.
    unfold M_bind at 1. unfold poll at 1.
    rewrite decide_True by exact Hp. reflexivity.
  - destruct (inbox (sock s)) as [|[|bs] q] eqn:Hin.
    + unfold awaitResponse. unfold mbind, M_bind at 1. unfold getTimeout at 1.
      unfold M_bind at 1. unfold poll at 1.
      rewrite decide_False by exact Hp.
      unfold M_bind at 1. unfold recv. rewrite Hin. reflexivity.
    + unfold awaitResponse. unfold mbind, M_bind at 1. unfold getTimeout at 1.
      unfold M_bind at 1. unfold poll at 1.
      rewrite decide_False by exact Hp.
      unfold M_bind at 1. unfold recv. rewrite Hin. reflexivity.
    + cbv zeta. destruct (take 1024 bs) as [|b r] eqn:Ht.
      * unfold awaitResponse. unfold mbind, M_bind at 1. unfold getTimeout at 1.
        unfold M_bind at 1. unfold poll at 1.
        rewrite decide_False by exact Hp.
        unfold M_bind at 1. rewrite (recv_bytes _ _ _ _ Hin), Ht. reflexivity.
      * rewrite <- Ht.
        apply awaitResponse_received; [lia | exact Hin | rewrite Ht; discriminate].
Qed.

(** What the wait and the read can change, and how much they read. *)
Lemma receivePrelude_effects (wait : MBErrorCode) (timeout : Z) (s : State) :
  let p := receivePrelude wait timeout s in
  this (snd p) = this s
  ∧ sendCalls (sock (snd p)) = sendCalls (sock s)
  ∧ codecCalls (snd p) = codecCalls s
  ∧ (∀ r, fst p = inr r → (1 <= length r <= 1024)%nat)
  ∧ (∀ e, fst p = inl e →
          e = wait ∨ e = ConnectionClosed ∨ e = ProtocolError).
Proof.
  cbv zeta. unfold receivePrelude.
  assert (E : ∀ (e0 : MBErrorCode) (s0 : State),
            this s0 = this s → sendCalls (sock s0) = sendCalls (sock s) →
            codecCalls s0 = codecCalls s →
            e0 = wait ∨ e0 = ConnectionClosed ∨ e0 = ProtocolError →
            let p : (MBErrorCode + list byte) * State := (inl e0, s0) in
            this (snd p) = this s
            ∧ sendCalls (sock (snd p)) = sendCalls (sock s)
            ∧ codecCalls (snd p) = codecCalls s
            ∧ (∀ r, fst p = inr r → (1 <= length r <= 1024)%nat)
            ∧ (∀ e, fst p = inl e →
                    e = wait ∨ e = ConnectionClosed ∨ e = ProtocolError)).
  { intros e0 s0 H1 H2 H3 He. cbn.
    split; [exact H1|]. split; [exact H2|]. split; [exact H3|].
    split; [intros r; discriminate | intros e [= <-]; exact He]. }
  destruct (decide (pollResult (sock s) timeout <= 0)).
  { apply E; auto. }
  destruct (inbox (sock s)) as [|[|bs] q].
  - apply E; auto.
  - apply E; auto.
  - cbv zeta. destruct (take 1024 bs) as [|b r] eqn:Ht.
    + apply E; auto.
    + cbn [fst snd].
      split; [reflexivity|]. split; [reflexivity|]. split; [reflexivity|].
      split; [|intros e; discriminate].
      intros r' [= <-]. rewrite <- Ht, length_take.
      assert (length (take 1024 bs) = S (length r)) as Hl
        by (rewrite Ht; reflexivity).
      rewrite length_take in Hl. lia.
Qed.

(** ** Frames of at least six bytes *)

Lemma awaitRequest_frame (host : endianness) `{codec : PduCodec}
    (s : State) (t0 t1 p0 p1 l0 l1 : byte) (payload : list byte)
    (q : list RecvEvent) :
  0 < pollResult (sock s) (60 * 1000) →
  inbox (sock s) = RecvBytes (t0 :: t1 :: p0 :: p1 :: l0 :: l1 :: payload) :: q →
  awaitRequest host s =
    (resultOf (requestFromRaw (take 1018 payload)),
     addCalls [CallRequestFromRaw (take 1018 payload)]
       (storeMessageId (object_value host [t0; t1])
          (setInbox (unread 1018 payload q) s))).
Proof.
  intros Hp Hin.
  rewrite (awaitRequest_received host s _ q Hp Hin) by discriminate.
  reflexivity.
Qed.

Lemma awaitResponse_frame (host : endianness) `{codec : PduCodec}
    (s : State) (t0 t1 p0 p1 l0 l1 : byte) (payload : list byte)
    (q : list RecvEvent) :
  0 < pollResult (sock s) (_timeout (this s)) →
  inbox (sock s) = RecvBytes (t0 :: t1 :: p0 :: p1 :: l0 :: l1 :: payload) :: q →
  awaitResponse host s =
    if decide (object_value host [t0; t1] = _messageID (this s))
    then deliverResponse (take 1018 payload) (setInbox (unread 1018 payload q) s)
    else (Throw (ExceptionOfCode InvalidMessageID),
          setInbox (unread 1018 payload q) s).
Proof.
  intros Hp Hin.
  rewrite (awaitResponse_received host s _ q Hp Hin) by discriminate.
  change (take 1024 (t0 :: t1 :: p0 :: p1 :: l0 :: l1 :: payload))
    with (t0 :: t1 :: p0 :: p1 :: l0 :: l1 :: take 1018 payload).
  change (unread 1024 (t0 :: t1 :: p0 :: p1 :: l0 :: l1 :: payload) q)
    with (unread 1018 payload q).
  unfold responseOutcome, deliverResponse.
  change (take 2 (t0 :: t1 :: p0 :: p1 :: l0 :: l1 :: take 1018 payload))
    with [t0; t1].
  change (drop 6 (t0 :: t1 :: p0 :: p1 :: l0 :: l1 :: take 1018 payload))
    with (take 1018 payload).
  change (this (setInbox (unread 1018 payload q) s)) with (this s).
  rewrite decide_False by (cbn; lia).
  destruct (decide (object_value host [t0; t1] = _messageID (this s))) as [E|E].
  - rewrite decide_False by (intros NE; exact (NE E)).
    rewrite decide_False by (cbn; lia).
    rewrite !addCalls_addCalls. reflexivity.
  - rewrite decide_True by exact E. reflexivity.
Qed.

Lemma headerBytes_shape (host : endianness) (id : Z) (n : nat) :
  ∃ a b c d,
    headerBytes host id n = [a; b; x00; x00; c; d]
    ∧ object_bytes host 2 id = [b; a].
Proof. destruct host; do 4 eexists; split; reflexivity. Qed.

Lemma whole_payload (payload : list byte) (q : list RecvEvent) :
  (length payload <= 1018)%nat →
  take 1018 payload = payload ∧ unread 1018 payload q = q.
Proof.
  intros Hle. unfold unread. rewrite take_ge, drop_ge by exact Hle.
  split; reflexivity.
Qed.

(** ** Requests and replies between two endpoints *)

(** X4: a server that has read a request of at least six bytes with
    [awaitRequest] answers it, by [sendResponse] or [sendException],
    with the two transaction-id bytes of the request in reverse order:
    the bytes [t0 t1] come back as [t1 t0], on every host. *)
Theorem X4_reply_carries_id_bytes_reversed (host : endianness)
    `{codec : PduCodec} (s : State) (t0 t1 p0 p1 l0 l1 : byte)
    (payload : list byte) (q : list RecvEvent)
    (res : ModbusResponse) (ex : ModbusException) :
  0 < pollResult (sock s) (60 * 1000) →
  inbox (sock s) = RecvBytes (t0 :: t1 :: p0 :: p1 :: l0 :: l1 :: payload) :: q →
  ∃ s1,
    awaitRequest host s = (resultOf (requestFromRaw (take 1018 payload)), s1)
    ∧ (∃ f, sendResponse host res s1 = (Ok f, addSend f s1)
            ∧ take 2 f = [t1; t0])
    ∧ (∃ f, sendException host ex s1 = (Ok f, addSend f s1)
            ∧ take 2 f = [t1; t0]).
Proof.
  intros Hp Hin. rewrite (awaitRequest_frame host s _ _ _ _ _ _ _ q Hp Hin).
  eexists. split; [reflexivity|].
  assert (F : ∀ dat s1, _messageID (this s1) = object_value host [t0; t1] →
            ∃ f, sendRaw host dat s1 = (Ok f, addSend f s1)
                 ∧ take 2 f = [t1; t0]).
  { intros dat s1 Hid. rewrite sendRaw_frame, Hid.
    destruct (headerBytes_shape host (object_value host [t0; t1]) (length dat))
      as (a & b & c & d & Hh & Ho).
    rewrite object_bytes_value in Ho. injection Ho as -> ->.
    rewrite Hh. eexists. split; reflexivity. }
  unfold sendResponse, sendException. split; apply F; reflexivity.
Qed.

Lemma X4_reply_carries_id_bytes_reversed_witness :
  let codec := rawCodec (λ _, false) in
  let s := clientState 0 [RecvBytes [x12; x34; x00; x00; x00; x01; x09]] in
  0 < pollResult (sock s) (60 * 1000)
  ∧ ∃ s1,
      awaitRequest LittleEndian s = (resultOf (requestFromRaw (take 1018 [x09])), s1)
      ∧ (∃ f, sendResponse LittleEndian [x0a] s1 = (Ok f, addSend f s1)
              ∧ take 2 f = [x34; x12])
      ∧ (∃ f, sendException LittleEndian (ExceptionOfRaw [x0b]) s1
                = (Ok f, addSend f s1)
              ∧ take 2 f = [x34; x12]).
Proof.
  intros codec s.
  assert (Hp : 0 < pollResult (sock s) (60 * 1000)) by (cbn; lia).
  split; [exact Hp|].
  exact (X4_reply_carries_id_bytes_reversed LittleEndian s
           x12 x34 x00 x00 x00 x01 [x09] [] [x0a] (ExceptionOfRaw [x0b])
           Hp eq_refl).
Defined.

(** X5: after [sendRequest] has put the id bytes [a b] on the wire, the
    next [awaitResponse] passes a reply of at least six bytes to the
    codec exactly when the reply starts with [b a], the same two bytes
    in reverse order; any other reply is consumed and answered with
    [InvalidMessageID].  This holds on every host. *)
Theorem X5_reply_accepted_iff_id_bytes_reversed (host : endianness)
    `{codec : PduCodec} (s : State) (req : ModbusRequest)
    (t0 t1 p0 p1 l0 l1 : byte) (payload : list byte) (q : list RecvEvent) :
  is_uint16 (_messageID (this s)) →
  0 < pollResult (sock s) (_timeout (this s)) →
  inbox (sock s) = RecvBytes (t0 :: t1 :: p0 :: p1 :: l0 :: l1 :: payload) :: q →
  ∃ a b rest s1,
    sendRequest host req s = (Ok (a :: b :: rest), s1)
    ∧ (t0 = b ∧ t1 = a →
       awaitResponse host s1 =
         deliverResponse (take 1018 payload)
                         (setInbox (unread 1018 payload q) s1))
    ∧ (¬ (t0 = b ∧ t1 = a) →
       awaitResponse host s1 =
         (Throw (ExceptionOfCode InvalidMessageID),
          setInbox (unread 1018 payload q) s1)).
Proof.
  intros Hid Hp Hin. unfold sendRequest. rewrite sendRaw_frame.
  destruct (headerBytes_shape host (_messageID (this s))
              (length (requestToRaw req))) as (a & b & c & d & Hh & Ho).
  rewrite Hh. cbn [app].
  eexists a, b, _, _. split; [reflexivity|].
  set (s1 := addSend _ s).
  assert (Hf : awaitResponse host s1 =
    if decide (object_value host [t0; t1] = _messageID (this s1))
    then deliverResponse (take 1018 payload) (setInbox (unread 1018 payload q) s1)
    else (Throw (ExceptionOfCode InvalidMessageID),
          setInbox (unread 1018 payload q) s1))
    by (apply (awaitResponse_frame host s1 t0 t1 p0 p1 l0 l1 payload q);
        [exact Hp | exact Hin]).
  change (_messageID (this s1)) with (_messageID (this s)) in Hf.
  pose proof (object_value_eq_iff host t0 t1 _ Hid) as Hiff.
  rewrite Ho in Hiff.
  split.
  - intros [-> ->]. rewrite Hf, decide_True; [reflexivity|].
    apply Hiff. reflexivity.
  - intros Hne. rewrite Hf, decide_False; [reflexivity|].
    intros E. apply Hiff in E. injection E as -> ->. apply Hne. split; reflexivity.
Qed.

Lemma X5_reply_accepted_iff_id_bytes_reversed_witness :
  let codec := rawCodec (λ _, false) in
  let s := clientState 5 [RecvBytes [x05; x00; x00; x00; x00; x01; x09]] in
  is_uint16 (_messageID (this s))
  ∧ 0 < pollResult (sock s) (_timeout (this s))
  ∧ ∃ a b rest s1,
      sendRequest LittleEndian [x01] s = (Ok (a :: b :: rest), s1)
      ∧ (x05 = b ∧ x00 = a →
         awaitResponse LittleEndian s1 =
           deliverResponse (take 1018 [x09])
                           (setInbox (unread 1018 [x09] []) s1))
      ∧ (¬ (x05 = b ∧ x00 = a) →
         awaitResponse LittleEndian s1 =
           (Throw (ExceptionOfCode InvalidMessageID),
            setInbox (unread 1018 [x09] []) s1)).
Proof.
  intros codec s.
  assert (Hid : is_uint16 (_messageID (this s))) by (cbn; unfold is_uint16; lia).
  assert (Hp : 0 < pollResult (sock s) (_timeout (this s))) by (cbn; lia).
  split; [exact Hid|]. split; [exact Hp|].
  exact (X5_reply_accepted_iff_id_bytes_reversed LittleEndian s [x01]
           x05 x00 x00 x00 x00 x01 [x09] [] Hid Hp eq_refl).
Defined.

(** X6: two endpoints that run this code complete an exchange, whatever
    the byte order of either host and whatever the stored id.  The
    request frame, read whole by the server's [awaitRequest], delivers
    the request bytes to the request decoder; the frame [sendResponse]
    then builds, read whole by the client's [awaitResponse], passes the
    id test and delivers the response bytes to the codec. *)
Theorem X6_exchange_between_two_endpoints (hc hs : endianness)
    `{codec : PduCodec} (client server : State)
    (req : ModbusRequest) (res : ModbusResponse) :
  is_uint16 (_messageID (this client)) →
  (length (requestToRaw req) <= 1018)%nat →
  (length (responseToRaw res) <= 1018)%nat →
  0 < pollResult (sock server) (60 * 1000) →
  0 < pollResult (sock client) (_timeout (this client)) →
  ∃ f1 f2 sv,
    sendRequest hc req client = (Ok f1, addSend f1 client)
    ∧ awaitRequest hs (setInbox [RecvBytes f1] server) =
        (resultOf (requestFromRaw (requestToRaw req)), sv)
    ∧ codecCalls sv = codecCalls server ++ [CallRequestFromRaw (requestToRaw req)]
    ∧ sendResponse hs res sv = (Ok f2, addSend f2 sv)
    ∧ awaitResponse hc (setInbox [RecvBytes f2] (addSend f1 client)) =
        deliverResponse (responseToRaw res) (setInbox [] (addSend f1 client)).
Proof.
  intros Hid Hreq Hres Hps Hpc.
  destruct (whole_payload (requestToRaw req) [] Hreq) as [Hq1 Hq2].
  destruct (whole_payload (responseToRaw res) [] Hres) as [Hr1 Hr2].
  unfold sendRequest, sendResponse.
  destruct (headerBytes_shape hc (_messageID (this client))
              (length (requestToRaw req))) as (a & b & c & d & Hh & Ho).
  exists (headerBytes hc (_messageID (this client)) (length (requestToRaw req))
          ++ requestToRaw req).
  rewrite sendRaw_frame. rewrite Hh. cbn [app].
  set (f1 := a :: b :: x00 :: x00 :: c :: d :: requestToRaw req).
  set (server1 := setInbox [RecvBytes f1] server).
  assert (Hrq : awaitRequest hs server1 =
    (resultOf (requestFromRaw (take 1018 (requestToRaw req))),
     addCalls [CallRequestFromRaw (take 1018 (requestToRaw req))]
       (storeMessageId (object_value hs [a; b])
          (setInbox (unread 1018 (requestToRaw req) []) server1))))
    by (apply (awaitRequest_frame hs server1 a b x00 x00 c d (requestToRaw req) []);
        [exact Hps | reflexivity]).
  rewrite Hq1, Hq2 in Hrq.
  set (sv := addCalls _ _) in Hrq.
  destruct (headerBytes_shape hs (object_value hs [a; b])
              (length (responseToRaw res))) as (a' & b' & c' & d' & Hh' & Ho').
  rewrite object_bytes_value in Ho'. injection Ho' as <- <-.
  exists (b :: a :: x00 :: x00 :: c' :: d' :: responseToRaw res), sv.
  split; [reflexivity|]. split; [exact Hrq|]. split; [reflexivity|].
  split.
  { rewrite sendRaw_frame.
    change (_messageID (this sv)) with (object_value hs [a; b]).
    rewrite Hh'. reflexivity. }
  set (client1 := setInbox _ (addSend f1 client)).
  assert (Hrs : awaitResponse hc client1 =
    if decide (object_value hc [b; a] = _messageID (this client1))
    then deliverResponse (take 1018 (responseToRaw res))
           (setInbox (unread 1018 (responseToRaw res) []) client1)
    else (Throw (ExceptionOfCode InvalidMessageID),
          setInbox (unread 1018 (responseToRaw res) []) client1))
    by (apply (awaitResponse_frame hc client1 b a x00 x00 c' d' (responseToRaw res) []);
        [exact Hpc | reflexivity]).
  rewrite Hr1, Hr2 in Hrs. rewrite Hrs.
  change (_messageID (this client1)) with (_messageID (this client)).
  rewrite <- Ho, object_value_bytes by exact Hid.
  rewrite decide_True by reflexivity. reflexivity.
Qed.

Lemma X6_exchange_between_two_endpoints_witness :
  let codec := rawCodec (λ _, false) in
  let client := clientState 4660 [] in
  let server := clientState 0 [] in
  is_uint16 (_messageID (this client))
  ∧ (length (requestToRaw (PduCodec := codec) [x01; x02]) <= 1018)%nat
  ∧ (length (responseToRaw (PduCodec := codec) [x03]) <= 1018)%nat
  ∧ 0 < pollResult (sock server) (60 * 1000)
  ∧ 0 < pollResult (sock client) (_timeout (this client))
  ∧ ∃ f1 f2 sv,
      sendRequest LittleEndian [x01; x02] client = (Ok f1, addSend f1 client)
      ∧ awaitRequest BigEndian (setInbox [RecvBytes f1] server) =
          (resultOf (requestFromRaw (requestToRaw [x01; x02])), sv)
      ∧ codecCalls sv =
          codecCalls server ++ [CallRequestFromRaw (requestToRaw [x01; x02])]
      ∧ sendResponse BigEndian [x03] sv = (Ok f2, addSend f2 sv)
      ∧ awaitResponse LittleEndian (setInbox [RecvBytes f2] (addSend f1 client)) =
          deliverResponse (responseToRaw [x03]) (setInbox [] (addSend f1 client)).
Proof.
  intros codec client server.
  assert (Hid : is_uint16 (_messageID (this client)))
    by (cbn; unfold is_uint16; lia).
  assert (H1 : (length (requestToRaw (PduCodec := codec) [x01; x02]) <= 1018)%nat)
    by (cbn; lia).
  assert (H2 : (length (responseToRaw (PduCodec := codec) [x03]) <= 1018)%nat)
    by (cbn; lia).
  assert (Hs : 0 < pollResult (sock server) (60 * 1000)) by (cbn; lia).
  assert (Hc : 0 < pollResult (sock client) (_timeout (this client)))
    by (cbn; lia).
  split; [exact Hid|]. split; [exact H1|]. split; [exact H2|].
  split; [exact Hs|]. split; [exact Hc|].
  exact (X6_exchange_between_two_endpoints LittleEndian BigEndian
           client server [x01; x02] [x03] Hid H1 H2 Hs Hc).
Defined.

(** ** What a receive operation leaves behind *)

Lemma requestOutcome_this (host : endianness) `{codec : PduCodec}
    (r : list byte) (s : State) :
  _sockfd (this (snd (requestOutcome host r s))) = _sockfd (this s)
  ∧ _timeout (this (snd (requestOutcome host r s))) = _timeout (this s).
Proof.
  unfold requestOutcome. repeat case_decide; split; reflexivity.
Qed.

Lemma responseOutcome_this (host : endianness) `{codec : PduCodec}
    (r : list byte) (s : State) :
  this (snd (responseOutcome host r s)) = this s.
Proof.
  unfold responseOutcome.
  repeat case_decide; try reflexivity.
  destruct (exceptionExist (drop 6 r)); reflexivity.
Qed.

(** X7: a receive operation whose wait does not report the socket
    readable reads nothing: connection, stream and codec are exactly as
    before the call, in all three operations. *)
Theorem X7_failed_wait_consumes_nothing (host : endianness) `{codec : PduCodec}
    (op : ReceiveOp) (s : State) :
  pollResult (sock s) (waitWindow op (this s)) <= 0 →
  stateAfter host op s = s.
Proof.
  intros Hp. destruct op; cbn in Hp |- *.
  - rewrite awaitRawMessage_total. unfold receivePrelude.
    rewrite decide_True by exact Hp. reflexivity.
  - rewrite awaitRequest_total. unfold receivePrelude.
    rewrite decide_True by exact Hp. reflexivity.
  - rewrite awaitResponse_total. unfold receivePrelude.
    rewrite decide_True by exact Hp. reflexivity.
Qed.

Lemma X7_failed_wait_consumes_nothing_witness :
  let codec := rawCodec (λ _, false) in
  let s := pollingState 0 [RecvBytes [x00; x00; x00; x00; x00; x01; x09]] in
  pollResult (sock s) (waitWindow ResponseOp (this s)) <= 0
  ∧ stateAfter LittleEndian ResponseOp s = s.
Proof.
  intros codec s.
  assert (Hp : pollResult (sock s) (waitWindow ResponseOp (this s)) <= 0)
    by (cbn; lia).
  split; [exact Hp|].
  exact (X7_failed_wait_consumes_nothing LittleEndian ResponseOp s Hp).
Defined.

(** X8: whatever the socket does, [awaitRawMessage] returns between 1
    and 1024 bytes or throws [ConnectionClosed] or [ProtocolError]; it
    never returns an empty vector, never throws [Timeout] or
    [InvalidMessageID], and never leaves the bounds of its buffer. *)
Theorem X8_awaitRawMessage_outcomes (s : State) :
  match fst (awaitRawMessage s) with
  | Ok r => (1 <= length r <= 1024)%nat
  | Throw e => e = ExceptionOfCode ConnectionClosed
               ∨ e = ExceptionOfCode ProtocolError
  | Undefined => False
  end.
Proof.
  rewrite awaitRawMessage_total.
  destruct (receivePrelude_effects ConnectionClosed (60 * 1000) s)
    as (_ & _ & _ & Hr & He).
  destruct (receivePrelude ConnectionClosed (60 * 1000) s) as [[e|r] s'];
    cbn [fst] in *.
  - destruct (He e eq_refl) as [-> | [-> | ->]]; auto.
  - apply Hr. reflexivity.
Qed.

(** X9: no receive operation sends anything or touches the descriptor
    or the timeout of the connection; [awaitRawMessage] and
    [awaitResponse] leave the whole connection object, the stored id
    included, as it was, whatever they end with. *)
Theorem X9_receive_leaves_connection (host : endianness) `{codec : PduCodec}
    (op : ReceiveOp) (s : State) :
  sendCalls (sock (stateAfter host op s)) = sendCalls (sock s)
  ∧ _sockfd (this (stateAfter host op s)) = _sockfd (this s)
  ∧ _timeout (this (stateAfter host op s)) = _timeout (this s)
  ∧ match op with
    | RequestOp => True
    | RawMessageOp | ResponseOp => this (stateAfter host op s) = this s
    end.
Proof.
  destruct op; cbn [stateAfter].
  - rewrite awaitRawMessage_total.
    destruct (receivePrelude_effects ConnectionClosed (60 * 1000) s)
      as (Ht & Hs & _).
    destruct (receivePrelude ConnectionClosed (60 * 1000) s) as [[e|r] s'];
      cbn [snd] in *; rewrite Ht, Hs; auto.
  - rewrite awaitRequest_total.
    destruct (receivePrelude_effects Timeout (60 * 1000) s) as (Ht & Hs & _).
    destruct (receivePrelude Timeout (60 * 1000) s) as [[e|r] s'];
      cbn [snd] in *.
    + rewrite Ht, Hs. auto.
    + destruct (requestOutcome_effects host r s') as [Hk _].
      destruct (requestOutcome_this host r s') as [Hfd Hto].
      rewrite Hk, Hfd, Hto, Ht, Hs. auto.
  - rewrite awaitResponse_total.
    destruct (receivePrelude_effects Timeout (_timeout (this s)) s)
      as (Ht & Hs & _).
    destruct (receivePrelude Timeout (_timeout (this s)) s) as [[e|r] s'];
      cbn [snd] in *.
    + rewrite Ht, Hs. auto.
    + destruct (responseOutcome_effects host r s') as [Hk _].
      rewrite Hk, (responseOutcome_this host r s'), Ht, Hs. auto.
Qed.

(** X10: in every run of [awaitResponse] the codec is used in one of
    three ways.  Either it is not called at all, and the call ends with
    one of the four error codes of the connection or outside the
    buffer; or the exception detector is asked once, recognises the
    payload, and the exception built from the payload is thrown; or the
    detector is asked once, declines, and the result is what the
    response decoder makes of the same payload. *)
Theorem X10_awaitResponse_uses_of_the_codec (host : endianness)
    `{codec : PduCodec} (s : State) :
  let r := awaitResponse host s in
  (codecCalls (snd r) = codecCalls s
   ∧ (fst r = Undefined
      ∨ ∃ e, fst r = Throw (ExceptionOfCode e)
             ∧ (e = Timeout ∨ e = ConnectionClosed ∨ e = ProtocolError
                ∨ e = InvalidMessageID)))
  ∨ (∃ p, codecCalls (snd r) = codecCalls s ++ [CallExist p; CallExceptionOfRaw p]
          ∧ exceptionExist p = true
          ∧ fst r = Throw (ExceptionOfRaw p))
  ∨ (∃ p, codecCalls (snd r) = codecCalls s ++ [CallExist p; CallResponseFromRaw p]
          ∧ exceptionExist p = false
          ∧ fst r = resultOf (responseFromRaw p)).
Proof.
  cbv zeta. rewrite awaitResponse_total.
  destruct (receivePrelude_effects Timeout (_timeout (this s)) s)
    as (_ & _ & Hc & _ & He).
  destruct (receivePrelude Timeout (_timeout (this s)) s) as [[e|r] s'];
    cbn [fst snd] in *.
  - left. split; [exact Hc|]. right. exists e. split; [reflexivity|].
    destruct (He e eq_refl) as [-> | [-> | ->]]; auto.
  - unfold responseOutcome.
    destruct (decide (length r < 2)%nat);
      [left; split; [exact Hc | left; reflexivity]|].
    destruct (decide (object_value host (take 2 r) ≠ _messageID (this s')));
      [left; split; [exact Hc|]; right; exists InvalidMessageID; auto|].
    destruct (decide (length r < 6)%nat);
      [left; split; [exact Hc | left; reflexivity]|].
    destruct (exceptionExist (drop 6 r)) eqn:Hex; right; [left|right];
      exists (drop 6 r); cbn [fst snd]; rewrite addCalls_addCalls;
      cbn [codecCalls addCalls]; rewrite Hc; auto.
Qed.

(** ** Descriptors over the lifetime of the objects *)

Lemma closed_if_live_NoDup (b : Prop) `{Decision b} (fd : Z) :
  NoDup (if decide b then [fd] else []).
Proof. case_decide; [apply NoDup_singleton | apply NoDup_nil_2]. Qed.

(** A transfer: the object at [self] (new, or holding [oc]) takes the
    descriptor of the object at [other]. *)
Lemma transfer_conserves (w w' : World) (self other : nat)
    (o : Connection) (oc : option Connection) (t : Z) (closed : list Z) :
  self ≠ other →
  objects w !! other = Some o →
  objects w !! self = oc →
  objects w' =
    <[other := movedFrom o]>
      (<[self := mkConnection (_sockfd o) (_messageID o) t]> (objects w)) →
  closeCalls w' = closeCalls w ++ closed →
  closed = match oc with
           | Some c => if decide (0 <= _sockfd c ∧ _sockfd c ≠ _sockfd o)
                       then [_sockfd c] else []
           | None => []
           end →
  exclusive w →
  conserves w w' closed.
Proof.
  intros Hne Ho Hc Hobj Hcalls Hclosed Hex.
  assert (Hself : objects w' !! self =
                  Some (mkConnection (_sockfd o) (_messageID o) t)).
  { rewrite Hobj, lookup_insert_ne by congruence. apply lookup_insert_eq. }
  assert (Hrest : ∀ a, a ≠ self → a ≠ other →
                       objects w' !! a = objects w !! a).
  { intros a H1 H2. rewrite Hobj, !lookup_insert_ne by congruence. reflexivity. }
  assert (Hin : ∀ a ca fd, objects w' !! a = Some ca → owns ca fd →
            (a = self ∧ fd = _sockfd o ∧ 0 <= fd)
            ∨ (a ≠ self ∧ a ≠ other ∧ objects w !! a = Some ca)).
  { intros a ca fd Ha [Hfd Hl]. rewrite Hobj in Ha.
    apply lookup_insert_Some in Ha as [[<- <-]|[Hao Ha]];
      [cbn in Hfd; lia|].
    apply lookup_insert_Some in Ha as [[<- <-]|[Has Ha]].
    - left. cbn in Hfd. auto.
    - right. auto. }
  assert (Hcl : ∀ fd, fd ∈ closed →
                      ∃ c, oc = Some c ∧ owns c fd ∧ _sockfd c ≠ _sockfd o).
  { intros fd Hfd. subst closed. destruct oc as [c|]; [|inversion Hfd].
    case_decide as Hd; [|inversion Hfd].
    apply list_elem_of_singleton in Hfd. subst fd.
    exists c. destruct Hd. repeat split; auto. }
  split; [exact Hcalls|]. split; [|split; [|split]].
  - subst closed. destruct oc as [c|]; [|apply NoDup_nil_2].
    apply closed_if_live_NoDup.
  - intros a b ca cb fd Ha Hb Hoa Hob.
    destruct (Hin a ca fd Ha Hoa) as [(-> & Hfa & _)|(Has & Hao & Ha')];
      destruct (Hin b cb fd Hb Hob) as [(-> & Hfb & _)|(Hbs & Hbo & Hb')].
    + reflexivity.
    + exfalso. apply Hbo. destruct Hob as [Hob1 Hob2].
      apply (Hex b other cb o fd Hb' Ho); split; auto.
    + exfalso. apply Hao. destruct Hoa as [Hoa1 Hoa2].
      apply (Hex a other ca o fd Ha' Ho); split; auto.
    + exact (Hex a b ca cb fd Ha' Hb' Hoa Hob).
  - intros fd. split.
    + intros (a & ca & Ha & Hoa).
      destruct (decide (a = self)) as [->|Has].
      * rewrite Hc in Ha. subst oc closed.
        destruct Hoa as [Hfd Hl].
        destruct (decide (_sockfd ca = _sockfd o)) as [E|E].
        -- left. eexists self, _. split; [exact Hself|].
           split; [cbn; congruence | exact Hl].
        -- right. rewrite Ha.
           rewrite decide_True by (split; [lia | exact E]).
           apply list_elem_of_singleton. congruence.
      * destruct (decide (a = other)) as [->|Hao].
        -- left. rewrite Ho in Ha. injection Ha as <-.
           eexists self, _. split; [exact Hself|].
           destruct Hoa as [Hfd Hl]. split; [cbn; exact Hfd | exact Hl].
        -- left. exists a, ca. split; [|exact Hoa].
           rewrite Hrest by assumption. exact Ha.
    + intros [(a & ca & Ha & Hoa)|Hfd].
      * destruct (Hin a ca fd Ha Hoa) as [(-> & Hf & Hl)|(Has & Hao & Ha')].
        -- exists other, o. split; [exact Ho|]. split; [congruence | exact Hl].
        -- exists a, ca. auto.
      * destruct (Hcl fd Hfd) as (c & -> & Hoc & _).
        exists self, c. auto.
  - intros fd Hfd (a & ca & Ha & Hoa).
    destruct (Hcl fd Hfd) as (c & -> & Hoc & Hdiff).
    destruct (Hin a ca fd Ha Hoa) as [(-> & Hf & Hl)|(Has & Hao & Ha')].
    + destruct Hoc as [Hoc _]. congruence.
    + apply Has. exact (Hex a self ca c fd Ha' Hc Hoa Hoc).
Qed.

(** A release: the object at [self] gives up its descriptor, and stays
    ([closeSockfd]) or goes (the destructor). *)
Lemma release_conserves (w w' : World) (self : nat) (c : Connection)
    (closed : list Z) :
  objects w !! self = Some c →
  (objects w' = <[self := movedFrom c]> (objects w)
   ∨ objects w' = delete self (objects w)) →
  closeCalls w' = closeCalls w ++ closed →
  closed = (if decide (0 <= _sockfd c) then [_sockfd c] else []) →
  exclusive w →
  conserves w w' closed.
Proof.
  intros Hc Hobj Hcalls Hclosed Hex.
  assert (Hin : ∀ a ca fd, objects w' !! a = Some ca → owns ca fd →
                           a ≠ self ∧ objects w !! a = Some ca).
  { intros a ca fd Ha [Hfd Hl]. destruct Hobj as [Hobj|Hobj]; rewrite Hobj in Ha.
    - apply lookup_insert_Some in Ha as [[<- <-]|[Has Ha]];
        [cbn in Hfd; lia | auto].
    - apply lookup_delete_Some in Ha as [Has Ha]. auto. }
  assert (Hout : ∀ a, a ≠ self → objects w' !! a = objects w !! a).
  { intros a Ha. destruct Hobj as [Hobj|Hobj]; rewrite Hobj.
    - apply lookup_insert_ne. congruence.
    - apply lookup_delete_ne. congruence. }
  assert (Hcl : ∀ fd, fd ∈ closed → owns c fd).
  { intros fd Hfd. subst closed. case_decide; [|inversion Hfd].
    apply list_elem_of_singleton in Hfd. subst fd. split; auto. }
  split; [exact Hcalls|]. split; [|split; [|split]].
  - subst closed. apply closed_if_live_NoDup.
  - intros a b ca cb fd Ha Hb Hoa Hob.
    destruct (Hin a ca fd Ha Hoa) as [_ Ha'].
    destruct (Hin b cb fd Hb Hob) as [_ Hb'].
    exact (Hex a b ca cb fd Ha' Hb' Hoa Hob).
  - intros fd. split.
    + intros (a & ca & Ha & Hoa).
      destruct (decide (a = self)) as [->|Has].
      * right. rewrite Hc in Ha. injection Ha as <-. subst closed.
        destruct Hoa as [Hfd Hl]. rewrite decide_True by lia.
        apply list_elem_of_singleton. congruence.
      * left. exists a, ca. rewrite Hout by exact Has. auto.
    + intros [(a & ca & Ha & Hoa)|Hfd].
      * destruct (Hin a ca fd Ha Hoa) as [_ Ha']. exists a, ca. auto.
      * exists self, c. split; [exact Hc | exact (Hcl fd Hfd)].
  - intros fd Hfd (a & ca & Ha & Hoa).
    destruct (Hin a ca fd Ha Hoa) as [Has Ha'].
    apply Has. exact (Hex a self ca c fd Ha' Hc Hoa (Hcl fd Hfd)).
Qed.

Lemma conserves_refl (w : World) : exclusive w → conserves w w [].
Proof.
  intros Hex. split; [symmetry; apply app_nil_r|].
  split; [apply NoDup_nil_2|]. split; [exact Hex|]. split.
  - intros fd. split; [auto|]. intros [H|H]; [exact H | inversion H].
  - intros fd H. inversion H.
Qed.

Lemma conserves_trans (w1 w2 w3 : World) (c1 c2 : list Z) :
  conserves w1 w2 c1 → conserves w2 w3 c2 → conserves w1 w3 (c1 ++ c2).
Proof.
  intros (Hc1 & Hn1 & He1 & Hl1 & Hd1) (Hc2 & Hn2 & He2 & Hl2 & Hd2).
  split; [rewrite Hc2, Hc1, app_assoc; reflexivity|].
  split; [|split; [exact He2|split]].
  - apply NoDup_app. split; [exact Hn1|]. split; [|exact Hn2].
    intros fd H1 H2. apply (Hd1 fd H1). apply Hl2. right. exact H2.
  - intros fd. rewrite Hl1, Hl2, elem_of_app. tauto.
  - intros fd Hfd Hlive. apply elem_of_app in Hfd as [H1|H2].
    + apply (Hd1 fd H1). apply Hl2. left. exact Hlive.
    + exact (Hd2 fd H2 Hlive).
Qed.

Lemma lifeStep_conserves (op : LifeOp) (w w' : World) :
  exclusive w → lifeStep op w = Some w' → ∃ closed, conserves w w' closed.
Proof.
  intros Hex Hstep. destruct op as [self other|self moved|self|self];
    cbn [lifeStep] in Hstep.
  - destruct (objects w !! self) as [c|] eqn:Hc.
    2: { unfold moveAssign in Hstep. rewrite Hc in Hstep. discriminate. }
    destruct (decide (self = other)) as [<-|Hne].
    { rewrite (moveAssign_self self w c Hc) in Hstep. injection Hstep as <-.
      exists []. apply conserves_refl. exact Hex. }
    destruct (objects w !! other) as [o|] eqn:Ho.
    2: { unfold moveAssign in Hstep. rewrite Hc, Ho in Hstep. discriminate. }
    rewrite (moveAssign_distinct self other w c o Hne Hc Ho) in Hstep.
    injection Hstep as <-. eexists.
    apply (transfer_conserves w _ self other o (Some c) (_timeout c));
      try assumption; try reflexivity.
    cbn. apply closeUnlessShared_closed.
  - destruct (objects w !! self) as [c|] eqn:Hc.
    { unfold moveConstruct in Hstep. rewrite Hc in Hstep. discriminate. }
    destruct (objects w !! moved) as [o|] eqn:Ho.
    2: { unfold moveConstruct in Hstep. rewrite Hc, Ho in Hstep. discriminate. }
    rewrite (moveConstruct_fresh self moved w o Hc Ho) in Hstep.
    injection Hstep as <-. exists [].
    apply (transfer_conserves w _ self moved o None DefaultTCPTimeout);
      try assumption; try reflexivity.
    + intros ->. congruence.
    + cbn. symmetry. apply app_nil_r.
  - unfold closeAt in Hstep.
    destruct (objects w !! self) as [c|] eqn:Hc; [|discriminate].
    cbn in Hstep. injection Hstep as <-. eexists.
    apply (release_conserves w _ self c); try assumption; try reflexivity.
    left. reflexivity.
  - unfold destroy in Hstep.
    destruct (objects w !! self) as [c|] eqn:Hc; [|discriminate].
    cbn in Hstep. injection Hstep as <-. eexists.
    apply (release_conserves w _ self c); try assumption; try reflexivity.
    right. reflexivity.
Qed.

Lemma lifeRun_conserves (ops : list LifeOp) (w w' : World) :
  exclusive w →
  lifeRun ops w = Some w' →
  ∃ closed, conserves w w' closed.
Proof.
  revert w. induction ops as [|op ops IH]; intros w Hex Hrun.
  - cbn in Hrun. injection Hrun as <-. exists []. apply conserves_refl. exact Hex.
  - cbn [lifeRun] in Hrun.
    destruct (lifeStep op w) as [w1|] eqn:Hstep; [|discriminate].
    cbn in Hrun.
    destruct (lifeStep_conserves op w w1 Hex Hstep) as (c1 & H1).
    assert (Hex1 : exclusive w1) by (destruct H1 as (_ & _ & He & _); exact He).
    destruct (IH w1 Hex1 Hrun) as (c2 & H2).
    exists (c1 ++ c2). exact (conserves_trans w w1 w' c1 c2 H1 H2).
Qed.

(** X11: over any run of move assignments, move constructions,
    [closeSockfd] calls and destructions that starts with no descriptor
    owned twice, no descriptor is passed to [::close] twice, every
    descriptor closed was owned at the start and is owned no longer, and
    every other descriptor owned at the start still has exactly one
    owner: nothing is closed twice and nothing is lost. *)
Theorem X11_no_double_close_no_leak (ops : list LifeOp) (w w' : World) :
  exclusive w →
  lifeRun ops w = Some w' →
  ∃ closed,
    closeCalls w' = closeCalls w ++ closed
    ∧ NoDup closed
    ∧ exclusive w'
    ∧ (∀ fd, live w fd ↔ live w' fd ∨ fd ∈ closed)
    ∧ (∀ fd, fd ∈ closed → ¬ live w' fd).
Proof. exact (lifeRun_conserves ops w w'). Qed.

Lemma twoConnections_exclusive : exclusive twoConnections.
Proof.
  intros a b ca cb fd Ha Hb [Hfa _] [Hfb _]. unfold twoConnections in Ha, Hb.
  cbn [objects] in Ha, Hb.
  apply lookup_insert_Some in Ha as [[<- <-]|[_ Ha]];
    apply lookup_insert_Some in Hb as [[<- <-]|[_ Hb]];
    try reflexivity.
  - apply lookup_insert_Some in Hb as [[<- <-]|[_ Hb]];
      [cbn in Hfa, Hfb; lia | rewrite lookup_empty in Hb; discriminate].
  - apply lookup_insert_Some in Ha as [[<- <-]|[_ Ha]];
      [cbn in Hfa, Hfb; lia | rewrite lookup_empty in Ha; discriminate].
  - apply lookup_insert_Some in Ha as [[<- <-]|[_ Ha]];
      [|rewrite lookup_empty in Ha; discriminate].
    apply lookup_insert_Some in Hb as [[<- <-]|[_ Hb]];
      [reflexivity | rewrite lookup_empty in Hb; discriminate].
Qed.

Lemma X11_no_double_close_no_leak_witness :
  let ops := [OpMoveAssign 1 2; OpDestroy 2; OpClose 1; OpDestroy 1] in
  let w' := mkWorld ∅ [3; 4] in
  exclusive twoConnections
  ∧ lifeRun ops twoConnections = Some w'
  ∧ ∃ closed,
      closeCalls w' = closeCalls twoConnections ++ closed
      ∧ NoDup closed
      ∧ exclusive w'
      ∧ (∀ fd, live twoConnections fd ↔ live w' fd ∨ fd ∈ closed)
      ∧ (∀ fd, fd ∈ closed → ¬ live w' fd).
Proof.
  intros ops w'.
  assert (Hrun : lifeRun ops twoConnections = Some w')
    by (vm_compute; reflexivity).
  split; [exact twoConnections_exclusive|]. split; [exact Hrun|].
  exact (X11_no_double_close_no_leak ops twoConnections w'
           twoConnections_exclusive Hrun).
Defined.

(** ** The two definitions of move assignment *)

(** X12: the [operator=] defined inline in the class declaration and
    the one of [connection.cpp] leave the same objects behind.  They
    make the same [::close] calls whenever the destination holds -1 or a
    descriptor that is not negative; when it holds another negative
    value that differs from the source's, the inline definition passes
    it to [::close] and [connection.cpp] closes nothing.  In every other
    case, self-assignment and equal descriptors included, the two
    definitions leave the same world. *)
Theorem X12_inline_move_assignment (self other : nat) (w : World)
    (c o : Connection) :
  objects w !! self = Some c →
  objects w !! other = Some o →
  ∃ w1 w2,
    moveAssign self other w = Some w1
    ∧ moveAssignInline self other w = Some w2
    ∧ objects w1 = objects w2
    ∧ (-1 <= _sockfd c → w1 = w2)
    ∧ (self ≠ other → _sockfd c < -1 → _sockfd c ≠ _sockfd o →
       closeCalls w1 = closeCalls w
       ∧ closeCalls w2 = closeCalls w ++ [_sockfd c])
    ∧ (_sockfd c < -1 → self = other ∨ _sockfd c = _sockfd o → w1 = w2).
Proof.
  intros Hc Ho. destruct (decide (self = other)) as [<-|Hne].
  - exists w, w. rewrite (moveAssign_self self w c Hc).
    unfold moveAssignInline. rewrite Hc. cbn.
    rewrite decide_True by reflexivity.
    split; [reflexivity|]. split; [reflexivity|]. split; [reflexivity|].
    split; [intros _; reflexivity|].
    split; [intros Hn; contradiction | intros _ _; reflexivity].
  - rewrite (moveAssign_distinct self other w c o Hne Hc Ho).
    unfold moveAssignInline. rewrite Hc, Ho. cbn.
    rewrite decide_False by exact Hne.
    eexists _, _. split; [reflexivity|]. split; [reflexivity|].
    rewrite closeUnlessShared_closed. cbn [objects closeCalls].
    split; [reflexivity|]. split.
    + intros Hge. f_equal. f_equal.
      repeat case_decide; try reflexivity; exfalso;
        repeat match goal with H : _ ∧ _ |- _ => destruct H end;
        match goal with H : ¬ (_ ∧ _) |- _ => apply H; split; auto; lia end.
    + split.
      * intros _ Hneg Hdiff.
        rewrite decide_False by lia.
        rewrite decide_True by (split; [lia | exact Hdiff]).
        split; [apply app_nil_r | reflexivity].
      * intros Hneg [Heq|Heq]; [contradiction|].
        rewrite decide_False by lia.
        rewrite decide_False by (intros [_ Hd]; exact (Hd Heq)).
        reflexivity.
Qed.

Lemma X12_inline_move_assignment_witness :
  let w := mkWorld (<[2%nat := mkConnection 4 7 DefaultTCPTimeout]>
                      (<[1%nat := mkConnection (-2) 0 DefaultTCPTimeout]> ∅))
                   [] in
  let c := mkConnection (-2) 0 DefaultTCPTimeout in
  let o := mkConnection 4 7 DefaultTCPTimeout in
  objects w !! 1%nat = Some c
  ∧ objects w !! 2%nat = Some o
  ∧ ∃ w1 w2,
      moveAssign 1 2 w = Some w1
      ∧ moveAssignInline 1 2 w = Some w2
      ∧ objects w1 = objects w2
      ∧ (-1 <= _sockfd c → w1 = w2)
      ∧ (1%nat ≠ 2%nat → _sockfd c < -1 → _sockfd c ≠ _sockfd o →
         closeCalls w1 = closeCalls w
         ∧ closeCalls w2 = closeCalls w ++ [_sockfd c])
      ∧ (_sockfd c < -1 → 1%nat = 2%nat ∨ _sockfd c = _sockfd o → w1 = w2).
Proof.
  intros w c o.
  assert (Hc : objects w !! 1%nat = Some c) by (vm_compute; reflexivity).
  assert (Ho : objects w !! 2%nat = Some o) by (vm_compute; reflexivity).
  split; [exact Hc|]. split; [exact Ho|].
  exact (X12_inline_move_assignment 1 2 w c o Hc Ho).
Defined.

(** ** [Connection::with] *)

(** X13: [with] checks no range of the port: the [int] is converted to
    16 bits on its way into [htons], so two ports that differ by a
    multiple of 65536 make the same system calls and give the same
    result. *)
Theorem X13_with_port_wraps (net : Network) (addr : list byte) (port k : Z) :
  Connection_with net addr (port + 65536 * k) = Connection_with net addr port.
Proof.
  unfold Connection_with, htons.
  replace (port + 65536 * k) with (port + k * 65536) by lia.
  rewrite Z.mod_add by lia. reflexivity.
Qed.



(** ** How much a receive operation reads, and what it makes of it *)

(** C8 (amended): a receive operation whose wait fails reads nothing;
    otherwise it makes exactly one [::recv] into a buffer of 1024 bytes
    and the stream is left as that one call leaves it.  What that read
    found is taken for the whole frame.  [awaitRawMessage] returns it.
    [awaitRequest] and [awaitResponse] look at its first two bytes and
    hand everything after the sixth byte to the codec: bytes 2..5, the
    length field among them, decide nothing, and what has not arrived
    with that read, or did not fit the buffer, stays in the stream.  A
    read of at most 1024 bytes is taken whole. *)
Theorem C8_one_bounded_read (host : endianness) `{codec : PduCodec}
    (s : State) :
  (∀ op,
     inbox (sock (stateAfter host op s)) =
       if decide (pollResult (sock s) (waitWindow op (this s)) <= 0)
       then inbox (sock s)
       else inbox (sock (snd (recv 1024 s))))
  ∧ (∀ bs q,
       inbox (sock s) = RecvBytes bs :: q →
       take 1024 bs ≠ [] →
       let r := take 1024 bs in
       let s' := setInbox (unread 1024 bs q) s in
       (0 < pollResult (sock s) (60 * 1000) →
        awaitRawMessage s = (Ok r, s')
        ∧ awaitRequest host s =
            if decide (length r < 2)%nat then (Undefined, s')
            else if decide (length r < 6)%nat
            then (Undefined, storeMessageId (object_value host (take 2 r)) s')
            else (resultOf (requestFromRaw (drop 6 r)),
                  addCalls [CallRequestFromRaw (drop 6 r)]
                    (storeMessageId (object_value host (take 2 r)) s')))
       ∧ (0 < pollResult (sock s) (_timeout (this s)) →
          awaitResponse host s =
            if decide (length r < 2)%nat then (Undefined, s')
            else if decide (object_value host (take 2 r) = _messageID (this s))
            then (if decide (length r < 6)%nat then (Undefined, s')
                  else deliverResponse (drop 6 r) s')
            else (Throw (ExceptionOfCode InvalidMessageID), s'))
       ∧ ((length bs <= 1024)%nat →
          take 1024 bs = bs ∧ unread 1024 bs q = q)).
Proof.
  split.
  - intros op.
    assert (P : ∀ (wait : MBErrorCode) (timeout : Z),
              inbox (sock (snd (receivePrelude wait timeout s))) =
                if decide (pollResult (sock s) timeout <= 0)
                then inbox (sock s)
                else inbox (sock (snd (recv 1024 s)))).
    { intros wait timeout. unfold receivePrelude, recv.
      destruct (decide (pollResult (sock s) timeout <= 0)); [reflexivity|].
      destruct (inbox (sock s)) as [|[|bs] q]; try reflexivity.
      cbv zeta. destruct (take 1024 bs); reflexivity. }
    destruct op; cbn [stateAfter waitWindow].
    + rewrite awaitRawMessage_total, <- (P ConnectionClosed).
      destruct (receivePrelude ConnectionClosed (60 * 1000) s) as [[e|r] s'];
        reflexivity.
    + rewrite awaitRequest_total, <- (P Timeout).
      destruct (receivePrelude Timeout (60 * 1000) s) as [[e|r] s'];
        [reflexivity|].
      destruct (requestOutcome_effects host r s') as [Hk _].
      cbn [snd]. rewrite Hk. reflexivity.
    + rewrite awaitResponse_total, <- (P Timeout).
      destruct (receivePrelude Timeout (_timeout (this s)) s) as [[e|r] s'];
        [reflexivity|].
      destruct (responseOutcome_effects host r s') as [Hk _].
      cbn [snd]. rewrite Hk. reflexivity.
  - intros bs q Hin Hne. cbv zeta. split; [|split].
    + intros Hp. split; [exact (awaitRawMessage_received s bs q Hp Hin Hne)|].
      rewrite (awaitRequest_received host s bs q Hp Hin Hne). reflexivity.
    + intros Hp. rewrite (awaitResponse_received host s bs q Hp Hin Hne).
      unfold responseOutcome, deliverResponse.
      change (this (setInbox (unread 1024 bs q) s)) with (this s).
      destruct (decide (length (take 1024 bs) < 2)%nat); [reflexivity|].
      destruct (decide (object_value host (take 2 (take 1024 bs))
                        = _messageID (this s))) as [E|E].
      * rewrite decide_False by (intros NE; exact (NE E)).
        destruct (decide (length (take 1024 bs) < 6)%nat); [reflexivity|].
        rewrite !addCalls_addCalls. reflexivity.
      * rewrite decide_True by exact E. reflexivity.
    + intros Hle. unfold unread.
      rewrite take_ge, drop_ge by exact Hle. split; reflexivity.
Qed.

Lemma C8_one_bounded_read_witness :
  let codec := rawCodec (λ _, false) in
  let bs := [x00; x00; x00; x00; x00; x02; x01] in
  let q := [RecvBytes [x02]] in
  let s := clientState 0 (RecvBytes bs :: q) in
  0 < pollResult (sock s) (60 * 1000)
  ∧ 0 < pollResult (sock s) (_timeout (this s))
  ∧ take 1024 bs ≠ []
  ∧ awaitRawMessage s = (Ok bs, setInbox q s)
  ∧ awaitRequest LittleEndian s =
      (Ok [x01],
       addCalls [CallRequestFromRaw [x01]] (storeMessageId 0 (setInbox q s)))
  ∧ awaitResponse LittleEndian s =
      (Ok [x01],
       addCalls [CallExist [x01]; CallResponseFromRaw [x01]] (setInbox q s))
  ∧ inbox (sock (stateAfter LittleEndian ResponseOp s)) = q.
Proof.
  intros codec bs q s.
  assert (H60 : 0 < pollResult (sock s) (60 * 1000)) by (cbn; lia).
  assert (Ht : 0 < pollResult (sock s) (_timeout (this s))) by (cbn; lia).
  assert (Hne : take 1024 bs ≠ []) by discriminate.
  destruct (C8_one_bounded_read LittleEndian s) as [Hreads Hframe].
  destruct (Hframe bs q eq_refl Hne) as (Hq & Hr & _).
  destruct (Hq H60) as [Hraw Hreq].
  split; [exact H60|]. split; [exact Ht|]. split; [exact Hne|].
  split; [exact Hraw|]. split; [exact Hreq|]. split; [exact (Hr Ht)|].
  exact (Hreads ResponseOp).
Defined.
